(** * Service-center dispatch engine (app.py): embedding and properties

    The development follows [app.py]: the [Agent] and [Customer] classes with
    their lifecycle methods, the three scheduling functions over the global
    waiting queue and agent pool, the metrics endpoint and the algorithm
    switch.

    Conventions of the embedding.
    - A [datetime] is its number of microseconds since the epoch (the
      resolution of Python's [datetime]); a [timedelta] is a signed number
      of microseconds and [total_seconds] is the exact rational number of
      seconds.  Python floats are read as exact numbers: rationals wherever the
      code only adds, divides and rounds, reals where it takes a square
      root.  Floating-point rounding error is outside the model, so no
      property here rests on two differently ordered float computations
      giving the same number.
    - Every call of [datetime.now()] is an explicit argument of the function
      that makes it, one argument per call.
    - Methods that mutate [self] or an argument return the new values.
    - The locks are not modelled: each function is one sequential call. *)

From Stdlib Require Import ZArith QArith Qround Qreduction List String Bool Lia.
From Stdlib Require Import Permutation Sorted.
From Stdlib Require Import Reals Lra.
Import ListNotations.

Open Scope Z_scope.

(** ** Time *)

Definition datetime := Z.
Definition timedelta := Z.

(** [timedelta.total_seconds()] *)
Definition total_seconds (td : timedelta) : Q := td # 1000000.

(** ** Exceptions raised by the modelled code *)

Inductive exn := TypeError | IndexError.

Inductive result (A : Type) :=
| Return (x : A)
| Raise (e : exn).
Arguments Return {A} x.
Arguments Raise {A} e.

(** ** [round(x, 2)] on exact rationals: nearest multiple of 1/100, exact
    ties to the even multiple.

    Python rounds the binary float it holds, so where the float lies just
    beside a decimal tie, or where float error moves a value across a
    rounding boundary, the program's result and this one differ by 0.01.
    Properties below that involve a rounded value are kept to cases where
    the two agree: values that are exact in binary, bounds, and equations
    between one and the same computation. *)

Definition round_half_even (q : Q) : Z :=
  let f := Qfloor q in
  match Qcompare (q - inject_Z f) (1 # 2) with
  | Lt => f
  | Gt => f + 1
  | Eq => if Z.even f then f else f + 1
  end.

Definition py_round2 (q : Q) : Q := Qred (round_half_even (q * 100) # 100).

Definition Qlt_bool (a b : Q) : bool := negb (Qle_bool b a).

(** ** Priorities *)

Inductive Priority := VIP | Corporate | Normal.

Definition PRIORITY_LEVELS (p : Priority) : Z :=
  match p with
  | VIP => 3
  | Corporate => 2
  | Normal => 1
  end.

(** ** class Customer *)

Record Customer := mkCustomer {
  customer_id : string;
  priority : Priority;
  service_time : Z;
  arrival_time : datetime;
  service_start_time : option datetime;
  service_end_time : option datetime;
  status : string;
  assigned_agent : option string;
  wait_time : option Q
}.

(** [priority_level] is set once in [__init__] from [PRIORITY_LEVELS] and
    never written again. *)
Definition priority_level (c : Customer) : Z := PRIORITY_LEVELS (priority c).

Definition Customer_init (cid : string) (p : Priority) (st : Z)
    (now : datetime) : Customer :=
  {| customer_id := cid; priority := p; service_time := st;
     arrival_time := now; service_start_time := None;
     service_end_time := None; status := "Waiting";
     assigned_agent := None; wait_time := None |}.

(** The dictionary built by [Customer.to_dict]; [cv_wait_time = None] stands
    for the string "N/A". *)
Record CustomerView := mkCustomerView {
  cv_customer_id : string;
  cv_priority : Priority;
  cv_service_time : Z;
  cv_arrival_time : datetime;
  cv_status : string;
  cv_assigned_agent : option string;
  cv_wait_time : option Q
}.

Definition Customer_to_dict (c : Customer) : CustomerView :=
  {| cv_customer_id := customer_id c; cv_priority := priority c;
     cv_service_time := service_time c; cv_arrival_time := arrival_time c;
     cv_status := status c; cv_assigned_agent := assigned_agent c;
     cv_wait_time := wait_time c |}.

(** ** class Agent

    [customers_served] holds references to customer objects; the program
    only ever reads its length.  A reference is recorded by the customer's
    id. *)

Record Agent := mkAgent {
  agent_id : string;
  name : string;
  workload_limit : Z;
  current_workload : Z;
  available : bool;
  customers_served : list string;
  total_service_time : Q;
  idle_time : Q;
  last_status_change : datetime
}.

Definition Agent_init (aid nm : string) (limit : Z) (now : datetime) : Agent :=
  {| agent_id := aid; name := nm; workload_limit := limit;
     current_workload := 0; available := true; customers_served := [];
     total_service_time := 0; idle_time := 0; last_status_change := now |}.

Definition assign_customer (self : Agent) (customer : Customer)
    (now : datetime) : Agent * Customer * bool :=
  if current_workload self <? workload_limit self then
    let w := current_workload self + 1 in
    let self' :=
      {| agent_id := agent_id self; name := name self;
         workload_limit := workload_limit self;
         current_workload := w;
         available := if w =? workload_limit self then false
                      else available self;
         customers_served := customers_served self ++ [customer_id customer];
         total_service_time := total_service_time self;
         idle_time := idle_time self;
         last_status_change := last_status_change self |} in
    let customer' :=
      {| customer_id := customer_id customer; priority := priority customer;
         service_time := service_time customer;
         arrival_time := arrival_time customer;
         service_start_time := Some now;
         service_end_time := service_end_time customer;
         status := "Being Served";
         assigned_agent := Some (agent_id self);
         wait_time := wait_time customer |} in
    (self', customer', true)
  else (self, customer, false).

(** [complete_service] reads the clock twice: [now1] for the duration and
    [now2] for [service_end_time].  When the customer has no
    [service_start_time] the subtraction raises after the workload and the
    flag have been written. *)
Definition complete_service (self : Agent) (customer : Customer)
    (now1 now2 : datetime) : Agent * Customer * result Q :=
  let w := current_workload self - 1 in
  let self1 :=
    {| agent_id := agent_id self; name := name self;
       workload_limit := workload_limit self;
       current_workload := w;
       available := if w <? workload_limit self then true
                    else available self;
       customers_served := customers_served self;
       total_service_time := total_service_time self;
       idle_time := idle_time self;
       last_status_change := last_status_change self |} in
  match service_start_time customer with
  | None => (self1, customer, Raise TypeError)
  | Some start =>
      let service_duration := total_seconds (now1 - start) in
      let self2 :=
        {| agent_id := agent_id self1; name := name self1;
           workload_limit := workload_limit self1;
           current_workload := current_workload self1;
           available := available self1;
           customers_served := customers_served self1;
           total_service_time :=
             (total_service_time self1 + service_duration)%Q;
           idle_time := idle_time self1;
           last_status_change := last_status_change self1 |} in
      let customer' :=
        {| customer_id := customer_id customer;
           priority := priority customer;
           service_time := service_time customer;
           arrival_time := arrival_time customer;
           service_start_time := service_start_time customer;
           service_end_time := Some now2;
           status := "Completed";
           assigned_agent := assigned_agent customer;
           wait_time :=
             Some (total_seconds (start - arrival_time customer)) |} in
      (self2, customer', Return service_duration)
  end.

Definition update_status (self : Agent) (now : datetime) : Agent :=
  {| agent_id := agent_id self; name := name self;
     workload_limit := workload_limit self;
     current_workload := current_workload self;
     available := available self;
     customers_served := customers_served self;
     total_service_time := total_service_time self;
     idle_time :=
       if negb (available self) then idle_time self
       else (idle_time self
             + total_seconds (now - last_status_change self)%Z)%Q;
     last_status_change := now |}.

(** The sums and the quotient are exact here and binary floats in the
    program; see the note at [py_round2]. *)
Definition calculate_utilization_rate (self : Agent) (now : datetime) : Q :=
  let total_time :=
    (total_seconds (now - last_status_change self)%Z
     + total_service_time self + idle_time self)%Q in
  if Qlt_bool 0 total_time
  then py_round2 ((total_service_time self / total_time) * 100)%Q
  else 0%Q.

(** The dictionary built by [Agent.to_dict]. *)
Record AgentView := mkAgentView {
  av_agent_id : string;
  av_name : string;
  av_workload_limit : Z;
  av_current_workload : Z;
  av_available : bool;
  av_customers_served : nat;
  av_utilization_rate : Q
}.

Definition Agent_to_dict (self : Agent) (now : datetime) : AgentView :=
  {| av_agent_id := agent_id self; av_name := name self;
     av_workload_limit := workload_limit self;
     av_current_workload := current_workload self;
     av_available := available self;
     av_customers_served := List.length (customers_served self);
     av_utilization_rate := calculate_utilization_rate self now |}.

(** ** Histories of one agent

    The three mutating methods as operations, each carrying its arguments
    and clock readings. *)

Inductive AgentOp :=
| OpAssign (customer : Customer) (now : datetime)
| OpComplete (customer : Customer) (now1 now2 : datetime)
| OpUpdate (now : datetime).

Definition apply_op (a : Agent) (op : AgentOp) : Agent :=
  match op with
  | OpAssign c now => fst (fst (assign_customer a c now))
  | OpComplete c now1 now2 => fst (fst (complete_service a c now1 now2))
  | OpUpdate now => update_status a now
  end.

(** The agent after each operation of a history, in order. *)
Fixpoint run_ops (a : Agent) (ops : list AgentOp) : list Agent :=
  match ops with
  | [] => []
  | op :: ops' => let a' := apply_op a op in a' :: run_ops a' ops'
  end.

(** [complete_service] is only called on an agent that holds an item. *)
Definition op_allowed (a : Agent) (op : AgentOp) : bool :=
  match op with
  | OpComplete _ _ _ => 1 <=? current_workload a
  | _ => true
  end.

Fixpoint ops_allowed (a : Agent) (ops : list AgentOp) : bool :=
  match ops with
  | [] => true
  | op :: ops' => op_allowed a op && ops_allowed (apply_op a op) ops'
  end.

(** How many [assign_customer] calls of a history returned [True]. *)
Fixpoint assigned_count (a : Agent) (ops : list AgentOp) : nat :=
  match ops with
  | [] => 0%nat
  | op :: ops' =>
      ((match op with
        | OpAssign c now => if snd (assign_customer a c now) then 1 else 0
        | _ => 0
        end) + assigned_count (apply_op a op) ops')%nat
  end.

(** How many [assign_customer] calls of a history met the agent below its
    limit. *)
Fixpoint spare_assign_count (a : Agent) (ops : list AgentOp) : nat :=
  match ops with
  | [] => 0%nat
  | op :: ops' =>
      ((match op with
        | OpAssign _ _ =>
            if (current_workload a <? workload_limit a)%Z then 1 else 0
        | _ => 0
        end) + spare_assign_count (apply_op a op) ops')%nat
  end.

(** How many [complete_service] calls a history contains. *)
Definition completed_count (ops : list AgentOp) : nat :=
  List.length (filter (fun op => match op with
                                 | OpComplete _ _ _ => true
                                 | _ => false
                                 end) ops).

Definition agent_invariant (a : Agent) : Prop :=
  0 <= current_workload a <= workload_limit a /\
  available a = (current_workload a <? workload_limit a).

(** ** Library behaviour of Python lists and builtins *)

(** Tuples of two integers compare lexicographically. *)
Definition tuple_lt (a b : Z * Z) : bool :=
  (fst a <? fst b) || ((fst a =? fst b) && (snd a <? snd b)).

Definition tuple_le (a b : Z * Z) : bool := negb (tuple_lt b a).

Section ListSort.
Context {A : Type} (key : A -> Z * Z).

(** [list.sort(key=...)] is a stable ascending sort.  It is modelled by
    insertion from the right: an element goes behind every strictly
    smaller key and in front of the equal keys that followed it.
    [stable_sort_unique] below shows that stability and sortedness leave
    no other choice of result. *)
Fixpoint insert_sorted (x : A) (l : list A) : list A :=
  match l with
  | [] => [x]
  | y :: l' =>
      if tuple_lt (key y) (key x) then y :: insert_sorted x l'
      else x :: y :: l'
  end.

Fixpoint list_sort (l : list A) : list A :=
  match l with
  | [] => []
  | x :: l' => insert_sorted x (list_sort l')
  end.

(** [x] may stand before [y] in a list sorted by the key. *)
Definition key_le (x y : A) : Prop := tuple_le (key x) (key y) = true.

Definition key_eqb (k : Z * Z) (x : A) : bool :=
  (fst (key x) =? fst k) && (snd (key x) =? snd k).

(** A reordering is stable when, for each key, the items with that key
    keep their relative order. *)
Definition stable_reorder (before after : list A) : Prop :=
  forall k, filter (key_eqb k) after = filter (key_eqb k) before.
End ListSort.

(** [l.pop(0)] *)
Definition pop0 {A : Type} (l : list A) : result (A * list A) :=
  match l with
  | [] => Raise IndexError
  | x :: l' => Return (x, l')
  end.

(** [max(first :: others, key=...)]: the first item with the largest key. *)
Fixpoint py_max_from {A : Type} (key : A -> Z) (best : A) (l : list A) : A :=
  match l with
  | [] => best
  | x :: l' => py_max_from key (if key best <? key x then x else best) l'
  end.

(** [min(first :: others, key=...)]: the first item with the smallest key. *)
Fixpoint py_min_from {A : Type} (key : A -> Z) (best : A) (l : list A) : A :=
  match l with
  | [] => best
  | x :: l' => py_min_from key (if key x <? key best then x else best) l'
  end.

(** In-place replacement of the object at position [i]. *)
Fixpoint list_set {A : Type} (l : list A) (i : nat) (x : A) : list A :=
  match l, i with
  | [], _ => []
  | _ :: l', O => x :: l'
  | y :: l', S i' => y :: list_set l' i' x
  end.

(** ** Global state *)

(** The three functions [current_algorithm] can refer to. *)
Inductive Algorithm :=
| RoundRobinScheduling
| PriorityScheduling
| ShortestJobNext.

Record System := mkSystem {
  agents : list Agent;
  waiting_queue : list Customer;
  service_history : list CustomerView;
  current_algorithm : Algorithm
}.

(** [[agent for agent in agents if agent.available]]; each agent object is
    carried with its position in the pool, which stands for its identity. *)
Definition available_agents (ags : list Agent) : list (nat * Agent) :=
  filter (fun ia => available (snd ia))
         (combine (seq 0 (List.length ags)) ags).

(** Pool order on agents carried with their positions. *)
Definition position_lt {A : Type} (p q : nat * A) : Prop :=
  (fst p < fst q)%nat.

(** ** Scheduling algorithms *)

Definition round_robin_scheduling (st : System) (now : datetime)
    : System * result (option Customer) :=
  match waiting_queue st with
  | [] => (st, Return None)
  | _ :: _ =>
      match available_agents (agents st) with
      | [] => (st, Return None)
      | (i, agent) :: _ =>
          match pop0 (waiting_queue st) with
          | Raise e => (st, Raise e)
          | Return (customer, rest) =>
              let '(agent', customer', _) :=
                assign_customer agent customer now in
              ({| agents := list_set (agents st) i agent';
                  waiting_queue := rest;
                  service_history := service_history st;
                  current_algorithm := current_algorithm st |},
               Return (Some customer'))
          end
      end
  end.

Definition priority_key (c : Customer) : Z * Z :=
  (- priority_level c, arrival_time c).

Definition spare_capacity (a : Agent) : Z :=
  workload_limit a - current_workload a.

Definition priority_scheduling (st : System) (now : datetime)
    : System * result (option Customer) :=
  match waiting_queue st with
  | [] => (st, Return None)
  | _ :: _ =>
      let st1 :=
        {| agents := agents st;
           waiting_queue := list_sort priority_key (waiting_queue st);
           service_history := service_history st;
           current_algorithm := current_algorithm st |} in
      match available_agents (agents st1) with
      | [] => (st1, Return None)
      | first :: others =>
          let '(i, agent) :=
            py_max_from (fun ia => spare_capacity (snd ia)) first others in
          match pop0 (waiting_queue st1) with
          | Raise e => (st1, Raise e)
          | Return (customer, rest) =>
              let '(agent', customer', _) :=
                assign_customer agent customer now in
              ({| agents := list_set (agents st1) i agent';
                  waiting_queue := rest;
                  service_history := service_history st1;
                  current_algorithm := current_algorithm st1 |},
               Return (Some customer'))
          end
      end
  end.

Definition shortest_job_key (c : Customer) : Z * Z :=
  (service_time c, - priority_level c).

Definition shortest_job_next (st : System) (now : datetime)
    : System * result (option Customer) :=
  match waiting_queue st with
  | [] => (st, Return None)
  | _ :: _ =>
      let st1 :=
        {| agents := agents st;
           waiting_queue := list_sort shortest_job_key (waiting_queue st);
           service_history := service_history st;
           current_algorithm := current_algorithm st |} in
      match available_agents (agents st1) with
      | [] => (st1, Return None)
      | first :: others =>
          let '(i, agent) :=
            py_min_from (fun ia => current_workload (snd ia)) first others in
          match pop0 (waiting_queue st1) with
          | Raise e => (st1, Raise e)
          | Return (customer, rest) =>
              let '(agent', customer', _) :=
                assign_customer agent customer now in
              ({| agents := list_set (agents st1) i agent';
                  waiting_queue := rest;
                  service_history := service_history st1;
                  current_algorithm := current_algorithm st1 |},
               Return (Some customer'))
          end
      end
  end.

(** Calling the function [current_algorithm] refers to. *)
Definition run_current_algorithm (st : System) (now : datetime)
    : System * result (option Customer) :=
  match current_algorithm st with
  | RoundRobinScheduling => round_robin_scheduling st now
  | PriorityScheduling => priority_scheduling st now
  | ShortestJobNext => shortest_job_next st now
  end.

(** ** Algorithm switch *)

Definition get_algorithm_name (st : System) : string :=
  match current_algorithm st with
  | RoundRobinScheduling => "Round Robin"
  | PriorityScheduling => "Priority Scheduling"
  | ShortestJobNext => "Shortest Job Next"
  end.

(** The two JSON replies of [set_algorithm]: the success body, or the error
    body with its HTTP status. *)
Inductive AlgorithmReply :=
| AlgorithmSet (success : bool) (algorithm : string)
| AlgorithmError (error : string) (http_status : Z).

Definition with_algorithm (st : System) (alg : Algorithm) : System :=
  {| agents := agents st; waiting_queue := waiting_queue st;
     service_history := service_history st; current_algorithm := alg |}.

Definition set_algorithm (algorithm : string) (st : System)
    : System * AlgorithmReply :=
  if String.eqb algorithm "round_robin" then
    let st' := with_algorithm st RoundRobinScheduling in
    (st', AlgorithmSet true (get_algorithm_name st'))
  else if String.eqb algorithm "priority" then
    let st' := with_algorithm st PriorityScheduling in
    (st', AlgorithmSet true (get_algorithm_name st'))
  else if String.eqb algorithm "shortest_job" then
    let st' := with_algorithm st ShortestJobNext in
    (st', AlgorithmSet true (get_algorithm_name st'))
  else (st, AlgorithmError "Invalid algorithm" 400).

(** ** Metrics *)

(** [round(x, 2)] on a real: the nearest multiple of 1/100, exact ties to the
    even multiple. *)
Definition Rround_half_even (x : R) : Z :=
  let f := Int_part x in
  let r := (x - IZR f)%R in
  if Rlt_dec r (1 / 2) then f
  else if Rlt_dec (1 / 2) r then f + 1
  else if Z.even f then f else f + 1.

Definition Rround2 (x : R) : R := (IZR (Rround_half_even (x * 100)) / 100)%R.

(** [sum(...)] over integers, rationals and reals: left to right from 0. *)
Definition Zsum (l : list Z) : Z := fold_left Z.add l 0.
Definition Qsum (l : list Q) : Q := fold_left Qplus l 0%Q.
Definition Rsum (l : list R) : R := fold_left Rplus l 0%R.

(** The wait times of the history entries whose [wait_time] is not "N/A". *)
Fixpoint known_wait_times (h : list CustomerView) : list Q :=
  match h with
  | [] => []
  | v :: h' =>
      match cv_wait_time v with
      | Some w => w :: known_wait_times h'
      | None => known_wait_times h'
      end
  end.

Definition avg_wait_time (h : list CustomerView) : Q :=
  let completed_customers := List.length h in
  if (0 <? completed_customers)%nat
  then (Qsum (known_wait_times h)
        / inject_Z (Z.of_nat completed_customers))%Q
  else 0%Q.

(** [clock k] is the reading of the [k]-th call of [datetime.now()] made
    while the metrics are computed: one call per agent, in pool order. *)
Definition utilization_rates (ags : list Agent) (clock : nat -> datetime)
    : list Q :=
  map (fun ia => calculate_utilization_rate (snd ia) (clock (fst ia)))
      (combine (seq 0 (List.length ags)) ags).

Definition avg_utilization (ags : list Agent) (clock : nat -> datetime) : Q :=
  match ags with
  | [] => 0%Q
  | _ :: _ =>
      (Qsum (utilization_rates ags clock)
       / inject_Z (Z.of_nat (List.length ags)))%Q
  end.

(** The local variable [fairness_score] of [get_metrics], before the reply
    rounds it. *)
Definition fairness_score (ags : list Agent) : R :=
  let workloads := map current_workload ags in
  match workloads with
  | [] => 100%R
  | _ :: _ =>
      let n := INR (List.length workloads) in
      let mean_workload := (IZR (Zsum workloads) / n)%R in
      let variance :=
        (Rsum (map (fun w => (IZR w - mean_workload) ^ 2) workloads) / n)%R in
      (100 - 100 * sqrt variance)%R
  end.

Record Metrics := mkMetrics {
  average_wait_time : Q;
  agent_utilization : Q;
  metrics_fairness_score : R;
  completed_customers : nat;
  customers_in_queue : nat;
  active_algorithm : string
}.

Definition get_metrics (st : System) (clock : nat -> datetime) : Metrics :=
  {| average_wait_time := py_round2 (avg_wait_time (service_history st));
     agent_utilization := py_round2 (avg_utilization (agents st) clock);
     metrics_fairness_score := Rround2 (fairness_score (agents st));
     completed_customers := List.length (service_history st);
     customers_in_queue := List.length (waiting_queue st);
     active_algorithm := get_algorithm_name st |}.

(** ** Reference definitions, written from the specification's wording *)

(** Population standard deviation of integer samples: the square root of the
    mean squared deviation from the mean. *)
Fixpoint total (xs : list Z) : R :=
  match xs with
  | [] => 0%R
  | x :: xs' => (IZR x + total xs')%R
  end.

Fixpoint squared_deviations (mu : R) (xs : list Z) : R :=
  match xs with
  | [] => 0%R
  | x :: xs' => ((IZR x - mu) * (IZR x - mu) + squared_deviations mu xs')%R
  end.

Definition spec_population_stddev (xs : list Z) : R :=
  let n := INR (List.length xs) in
  sqrt (squared_deviations (total xs / n) xs / n).

(** Fairness as the specification words it. *)
Definition spec_fairness (xs : list Z) : R :=
  match xs with
  | [] => 100%R
  | _ :: _ => (100 - 100 * spec_population_stddev xs)%R
  end.

(** ** Background threads

    Each loop body is one function; the values the loop draws at random or
    reads from the clock are its arguments. *)

(** One pass of [customer_generator], with the drawn id, priority and
    service time.  [customers] is the global list of every customer created;
    it holds references, recorded by id as in [customers_served]. *)
Definition customer_generator_step (customers : list string) (st : System)
    (cid : string) (p : Priority) (service : Z) (now : datetime)
    : list string * System :=
  let customer := Customer_init cid p service now in
  (customers ++ [customer_id customer],
   {| agents := agents st;
      waiting_queue := waiting_queue st ++ [customer];
      service_history := service_history st;
      current_algorithm := current_algorithm st |}).

(** [next((a for a in agents if a.agent_id == wanted), None)], the agent
    carried with its position.  No agent id equals [None]. *)
Fixpoint find_agent_from (i : nat) (ags : list Agent)
    (wanted : option string) : option (nat * Agent) :=
  match ags with
  | [] => None
  | a :: ags' =>
      if match wanted with
         | Some s => String.eqb (agent_id a) s
         | None => false
         end
      then Some (i, a)
      else find_agent_from (S i) ags' wanted
  end.

(** The second half of a [service_processor] pass, after the sleep: the
    serving agent is looked up by id, completes the service, and the
    customer's dictionary is appended to the history. *)
Definition service_processor_complete (st : System)
    (assigned_customer : Customer) (now1 now2 : datetime)
    : System * result unit :=
  match find_agent_from 0 (agents st) (assigned_agent assigned_customer) with
  | None => (st, Return tt)
  | Some (i, serving_agent) =>
      let '(agent', customer', r) :=
        complete_service serving_agent assigned_customer now1 now2 in
      match r with
      | Raise e =>
          ({| agents := list_set (agents st) i agent';
              waiting_queue := waiting_queue st;
              service_history := service_history st;
              current_algorithm := current_algorithm st |}, Raise e)
      | Return _ =>
          ({| agents := list_set (agents st) i agent';
              waiting_queue := waiting_queue st;
              service_history :=
                service_history st ++ [Customer_to_dict customer'];
              current_algorithm := current_algorithm st |}, Return tt)
      end
  end.

(** One pass of [service_processor]: [now] is read by the assignment,
    [now1] and [now2] by the completion. *)
Definition service_processor_pass (st : System) (now now1 now2 : datetime)
    : System * result unit :=
  match run_current_algorithm st now with
  | (st1, Raise e) => (st1, Raise e)
  | (st1, Return None) => (st1, Return tt)
  | (st1, Return (Some assigned_customer)) =>
      service_processor_complete st1 assigned_customer now1 now2
  end.

(** One pass of [status_updater]; [clock k] is read by the [k]-th agent. *)
Definition status_updater_tick (st : System) (clock : nat -> datetime)
    : System :=
  {| agents :=
       map (fun ia => update_status (snd ia) (clock (fst ia)))
           (combine (seq 0 (List.length (agents st))) (agents st));
     waiting_queue := waiting_queue st;
     service_history := service_history st;
     current_algorithm := current_algorithm st |}.

Definition agent_names : list string :=
  ["Alex"; "Blake"; "Casey"; "Dana"; "Elliot"; "Frankie"; "Gray"; "Harper";
   "Indigo"; "Jordan"]%string.

(** [init_system]: [ids i] and [limits i] are the id and the limit drawn in
    round [i], [clock i] the time the [i]-th agent is created. *)
Definition init_system (st : System) (ids : nat -> string)
    (limits : nat -> Z) (clock : nat -> datetime) : System :=
  {| agents :=
       fold_left
         (fun ags i =>
            ags ++ [Agent_init (ids i) (nth i agent_names ""%string)
                               (limits i) (clock i)])
         (seq 0 5) (agents st);
     waiting_queue := waiting_queue st;
     service_history := service_history st;
     current_algorithm := current_algorithm st |}.

(** The state the module starts from: empty globals, round robin. *)
Definition initial_system : System :=
  {| agents := []; waiting_queue := []; service_history := [];
     current_algorithm := RoundRobinScheduling |}.

(** ** Views *)

(** [get_agents]: one clock reading per agent. *)
Definition get_agents (st : System) (clock : nat -> datetime)
    : list AgentView :=
  map (fun ia => Agent_to_dict (snd ia) (clock (fst ia)))
      (combine (seq 0 (List.length (agents st))) (agents st)).

Definition get_queue (st : System) : list CustomerView :=
  map Customer_to_dict (waiting_queue st).

Definition get_history (st : System) : list CustomerView :=
  service_history st.

(** What a call of the current algorithm did when it handed customer
    [customer] to the agent [agent] at position [i]. *)
Definition dispatched (st : System) (now : datetime)
    (out : System * result (option Customer))
    (i : nat) (agent : Agent) (customer : Customer) : Prop :=
  nth_error (agents st) i = Some agent /\
  available agent = true /\
  Permutation (waiting_queue st) (customer :: waiting_queue (fst out)) /\
  out =
    ({| agents :=
          list_set (agents st) i
                   (fst (fst (assign_customer agent customer now)));
        waiting_queue := waiting_queue (fst out);
        service_history := service_history st;
        current_algorithm := current_algorithm st |},
     Return (Some (snd (fst (assign_customer agent customer now))))).

(** Several passes of [service_processor] in a row, each with its three
    clock readings, with no other thread acting in between. *)
Fixpoint service_passes (st : System)
    (times : list (datetime * datetime * datetime)) : System :=
  match times with
  | [] => st
  | (now, now1, now2) :: times' =>
      service_passes (fst (service_processor_pass st now now1 now2)) times'
  end.

(** The order in which an algorithm looks at a queue: arrival order for
    round robin, the sorted order for the two others. *)
Definition service_order (alg : Algorithm) (q : list Customer)
    : list Customer :=
  match alg with
  | RoundRobinScheduling => q
  | PriorityScheduling => list_sort priority_key q
  | ShortestJobNext => list_sort shortest_job_key q
  end.

(** ** The running system

    The four threads act on the globals one atomic step at a time: an
    arrival, a tick of the status updater, a switch of the algorithm, and
    the two halves of a [service_processor] pass, the assignment and, after
    the sleep, the completion.  [pending] is the processor's local variable
    [assigned_customer] during the sleep; [crashed] records an exception
    that ended the processor thread. *)

Record Running := mkRunning {
  globals : System;
  customers_created : list string;
  pending : option Customer;
  crashed : option exn
}.

Inductive Event :=
| Arrival (cid : string) (p : Priority) (service : Z) (now : datetime)
| Dispatch (now : datetime)
| Completion (now1 now2 : datetime)
| Tick (clock : nat -> datetime)
| SetAlgorithm (algorithm : string).

Definition processor_asleep (r : Running) : bool :=
  match pending r with Some _ => true | None => false end.

Definition processor_dead (r : Running) : bool :=
  match crashed r with Some _ => true | None => false end.

Definition step (r : Running) (ev : Event) : Running :=
  match ev with
  | Arrival cid p service now =>
      let '(cs, st) :=
        customer_generator_step (customers_created r) (globals r)
                                cid p service now in
      {| globals := st; customers_created := cs;
         pending := pending r; crashed := crashed r |}
  | Dispatch now =>
      if processor_dead r || processor_asleep r then r
      else
        match run_current_algorithm (globals r) now with
        | (st, Return assigned_customer) =>
            {| globals := st; customers_created := customers_created r;
               pending := assigned_customer; crashed := None |}
        | (st, Raise e) =>
            {| globals := st; customers_created := customers_created r;
               pending := None; crashed := Some e |}
        end
  | Completion now1 now2 =>
      if processor_dead r then r
      else
        match pending r with
        | None => r
        | Some assigned_customer =>
            match service_processor_complete (globals r) assigned_customer
                                             now1 now2 with
            | (st, Return _) =>
                {| globals := st; customers_created := customers_created r;
                   pending := None; crashed := None |}
            | (st, Raise e) =>
                {| globals := st; customers_created := customers_created r;
                   pending := None; crashed := Some e |}
            end
        end
  | Tick clock =>
      {| globals := status_updater_tick (globals r) clock;
         customers_created := customers_created r;
         pending := pending r; crashed := crashed r |}
  | SetAlgorithm algorithm =>
      {| globals := fst (set_algorithm algorithm (globals r));
         customers_created := customers_created r;
         pending := pending r; crashed := crashed r |}
  end.

Definition run_events (r : Running) (evs : list Event) : Running :=
  fold_left step evs r.

(** The system right after [run_simulation] has called [init_system]. *)
Definition started (ids : nat -> string) (limits : nat -> Z)
    (clock : nat -> datetime) : Running :=
  {| globals := init_system initial_system ids limits clock;
     customers_created := []; pending := None; crashed := None |}.

(** What holds of every state the running system reaches. *)
Definition running_invariant (r : Running) : Prop :=
  crashed r = None /\
  Forall agent_invariant (agents (globals r)) /\
  NoDup (map agent_id (agents (globals r))) /\
  Forall (fun c => status c = "Waiting"%string)
         (waiting_queue (globals r)) /\
  Forall (fun v => cv_status v = "Completed"%string /\
                   cv_wait_time v <> None)
         (service_history (globals r)) /\
  match pending r with
  | None =>
      Forall (fun a => current_workload a = 0) (agents (globals r))
  | Some c =>
      status c = "Being Served"%string /\
      service_start_time c <> None /\
      exists i agent,
        nth_error (agents (globals r)) i = Some agent /\
        assigned_agent c = Some (agent_id agent) /\
        current_workload agent = 1 /\
        forall j b, j <> i -> nth_error (agents (globals r)) j = Some b ->
                    current_workload b = 0
  end.

(** The two queue orders as the specification words them: priority tier
    descending then arrival time ascending, and service duration ascending
    then priority tier descending. *)
Definition priority_order (a b : Customer) : Prop :=
  priority_level b < priority_level a \/
  (priority_level a = priority_level b /\ arrival_time a <= arrival_time b).

Definition shortest_job_order (a b : Customer) : Prop :=
  service_time a < service_time b \/
  (service_time a = service_time b /\ priority_level b <= priority_level a).

(** ** Sample data *)

Definition sample_customer (cid : string) (p : Priority) (st : Z)
    (arrived : datetime) : Customer :=
  Customer_init cid p st arrived.

(** A customer that was assigned to agent ["a1"] at [started]. *)
Definition sample_served (cid : string) (p : Priority) (st : Z)
    (arrived started : datetime) : Customer :=
  snd (fst (assign_customer (Agent_init "a1" "Alex" 2 0)
                            (Customer_init cid p st arrived) started)).

Definition sample_ops : list AgentOp :=
  [ OpAssign (sample_customer "c1" VIP 10 1000000) 2000000;
    OpAssign (sample_customer "c2" Normal 5 3000000) 4000000;
    OpAssign (sample_customer "c3" Normal 7 5000000) 6000000;
    OpUpdate 7000000;
    OpComplete (sample_served "c1" VIP 10 1000000 2000000) 12000000 12000001;
    OpUpdate 13000000;
    OpComplete (sample_served "c2" Normal 5 3000000 4000000)
               17000000 17000001 ].

Definition sample_system (ags : list Agent) (q : list Customer) : System :=
  {| agents := ags; waiting_queue := q; service_history := [];
     current_algorithm := RoundRobinScheduling |}.

(** An agent of limit [limit] after [n] assignment attempts. *)
Definition sample_loaded (aid : string) (limit : Z) (n : nat) : Agent :=
  fold_left apply_op
    (repeat (OpAssign (sample_customer "c" Normal 5 0) 0) n)
    (Agent_init aid aid limit 0).

(** Agent ["a1"] after serving one customer from second 0 to second 10. *)
Definition sample_veteran : Agent :=
  fold_left apply_op
    [ OpAssign (sample_customer "c1" VIP 10 0) 0;
      OpComplete (sample_served "c1" VIP 10 0 0) 10000000 10000000 ]
    (Agent_init "a1" "Alex" 2 0).

(** * Properties *)

(** ** Agent methods *)

Lemma assign_customer_failure self customer now :
  workload_limit self <= current_workload self ->
  assign_customer self customer now = (self, customer, false).
Proof.
  intros H. unfold assign_customer.
  apply Z.ltb_ge in H. now rewrite H.
Qed.

(** C4: on an agent below its limit [assign_customer] adds one to the
    workload, clears [available] exactly when the new workload is the limit
    (and leaves the flag alone otherwise), marks the customer as being
    served by this agent from [now] on and returns [True]; on an agent at or
    above its limit it returns [False] and changes nothing. *)
Theorem assign_customer_spec (self : Agent) (customer : Customer)
    (now : datetime) :
  (current_workload self < workload_limit self ->
   let self' := fst (fst (assign_customer self customer now)) in
   let customer' := snd (fst (assign_customer self customer now)) in
   snd (assign_customer self customer now) = true /\
   current_workload self' = current_workload self + 1 /\
   available self' =
     (if current_workload self' =? workload_limit self then false
      else available self) /\
   (agent_invariant self ->
    (available self' = false <->
     current_workload self' = workload_limit self)) /\
   workload_limit self' = workload_limit self /\
   status customer' = "Being Served"%string /\
   assigned_agent customer' = Some (agent_id self) /\
   service_start_time customer' = Some now) /\
  (workload_limit self <= current_workload self ->
   assign_customer self customer now = (self, customer, false)).
Proof.
  split.
  - intros Hlt. unfold assign_customer.
    pose proof Hlt as Hb. apply Z.ltb_lt in Hb. rewrite Hb. cbn.
    repeat split; try reflexivity.
    + intros Hav. destruct (Z.eqb_spec (current_workload self + 1)
                              (workload_limit self)) as [He | Hne].
      * exact He.
      * destruct H as [_ Hflag]. rewrite Hflag, Hb in Hav. discriminate.
    + intros He. apply Z.eqb_eq in He. now rewrite He.
  - apply assign_customer_failure.
Qed.

(** C5: on a customer that has been assigned (it has a start time) and an
    agent whose workload is within its limit, [complete_service] takes one
    off the workload, leaves [available] equal to [workload < limit], adds
    [now1 - start] seconds to the total service time, marks the customer
    completed at [now2] with wait time [start - arrival], and returns the
    duration. *)
Theorem complete_service_spec (self : Agent) (customer : Customer)
    (start now1 now2 : datetime) :
  service_start_time customer = Some start ->
  current_workload self <= workload_limit self ->
  let self' := fst (fst (complete_service self customer now1 now2)) in
  let customer' := snd (fst (complete_service self customer now1 now2)) in
  let service_duration := total_seconds (now1 - start) in
  snd (complete_service self customer now1 now2) = Return service_duration /\
  current_workload self' = current_workload self - 1 /\
  available self' = (current_workload self' <? workload_limit self') /\
  total_service_time self' =
    (total_service_time self + service_duration)%Q /\
  status customer' = "Completed"%string /\
  service_end_time customer' = Some now2 /\
  wait_time customer' = Some (total_seconds (start - arrival_time customer)).
Proof.
  intros Hstart Hle. unfold complete_service. rewrite Hstart. cbn.
  repeat split; try reflexivity.
  assert (Hb : (current_workload self - 1 <? workload_limit self) = true)
    by (apply Z.ltb_lt; lia).
  now rewrite Hb.
Qed.

(** C9 (as amended): [update_status] always stamps [last_status_change];
    it leaves [idle_time] alone on an agent whose [available] flag is off
    (under the invariant: an agent filled to its limit) and adds
    [now - last_status_change] seconds on an agent whose flag is on, even
    when that agent is serving customers.  Nothing else changes. *)
Theorem update_status_spec (self : Agent) (now : datetime) :
  let self' := update_status self now in
  last_status_change self' = now /\
  (available self = false -> idle_time self' = idle_time self) /\
  (available self = true ->
   idle_time self' =
     (idle_time self + total_seconds (now - last_status_change self)%Z)%Q) /\
  (agent_invariant self ->
   (available self = false <->
    current_workload self = workload_limit self)) /\
  current_workload self' = current_workload self /\
  workload_limit self' = workload_limit self /\
  available self' = available self /\
  total_service_time self' = total_service_time self /\
  customers_served self' = customers_served self.
Proof.
  cbn. repeat split; try reflexivity.
  - intros H. now rewrite H.
  - intros H. now rewrite H.
  - intros Hav. destruct H as [Hr Hflag]. rewrite Hflag in Hav.
    apply Z.ltb_ge in Hav. lia.
  - intros He. destruct H as [_ Hflag]. rewrite Hflag.
    apply Z.ltb_ge. lia.
Qed.

(** ** The agent invariant along a history *)

Lemma agent_invariant_init aid nm limit now :
  1 <= limit -> agent_invariant (Agent_init aid nm limit now).
Proof.
  intros H. unfold agent_invariant. cbn. split; [lia |].
  symmetry. apply Z.ltb_lt. lia.
Qed.

Lemma agent_invariant_assign a c now :
  agent_invariant a ->
  agent_invariant (fst (fst (assign_customer a c now))).
Proof.
  intros [Hr Hflag]. unfold assign_customer.
  destruct (Z.ltb_spec (current_workload a) (workload_limit a)) as [Hlt | Hge].
  - unfold agent_invariant. cbn. split; [lia |].
    destruct (Z.eqb_spec (current_workload a + 1) (workload_limit a))
      as [He | Hne].
    + symmetry. apply Z.ltb_ge. lia.
    + rewrite Hflag. symmetry. apply Z.ltb_lt. lia.
  - cbn. unfold agent_invariant. split; [assumption |].
    rewrite Hflag. symmetry. apply Z.ltb_ge. lia.
Qed.

Lemma agent_invariant_complete a c now1 now2 :
  1 <= current_workload a ->
  agent_invariant a ->
  agent_invariant (fst (fst (complete_service a c now1 now2))).
Proof.
  intros Hpos [Hr Hflag]. unfold complete_service.
  assert (Hb : (current_workload a - 1 <? workload_limit a) = true)
    by (apply Z.ltb_lt; lia).
  destruct (service_start_time c); unfold agent_invariant; cbn;
    rewrite Hb; (split; [lia | reflexivity]).
Qed.

Lemma agent_invariant_update a now :
  agent_invariant a -> agent_invariant (update_status a now).
Proof. intros H. exact H. Qed.

Lemma agent_invariant_step a op :
  op_allowed a op = true ->
  agent_invariant a -> agent_invariant (apply_op a op).
Proof.
  destruct op as [c now | c now1 now2 | now]; cbn; intros Hok Hinv.
  - now apply agent_invariant_assign.
  - apply agent_invariant_complete; [now apply Z.leb_le | assumption].
  - now apply agent_invariant_update.
Qed.

Lemma agent_invariant_run ops : forall a,
  agent_invariant a -> ops_allowed a ops = true ->
  Forall agent_invariant (run_ops a ops).
Proof.
  induction ops as [| op ops IH]; intros a Hinv Hok; cbn.
  - constructor.
  - cbn in Hok. apply andb_true_iff in Hok. destruct Hok as [Hop Hrest].
    pose proof (agent_invariant_step a op Hop Hinv) as Hnext.
    constructor; [exact Hnext | now apply IH].
Qed.

(** C1: an agent created with a limit of at least one satisfies
    [0 <= current_workload <= workload_limit] and
    [available = (current_workload < workload_limit)] after every
    operation of any history of [assign_customer], [complete_service] and
    [update_status] calls in which [complete_service] is only called while
    the workload is at least one. *)
Theorem agent_invariant_always (aid nm : string) (limit : Z)
    (created : datetime) (ops : list AgentOp) :
  1 <= limit ->
  ops_allowed (Agent_init aid nm limit created) ops = true ->
  Forall agent_invariant (run_ops (Agent_init aid nm limit created) ops).
Proof.
  intros Hlimit Hok.
  apply agent_invariant_run; [now apply agent_invariant_init | exact Hok].
Qed.

(** ** What [customers_served] counts *)

Lemma customers_served_assign a c now :
  List.length (customers_served (fst (fst (assign_customer a c now)))) =
  (List.length (customers_served a)
   + (if snd (assign_customer a c now) then 1 else 0))%nat.
Proof.
  unfold assign_customer.
  destruct (current_workload a <? workload_limit a); cbn.
  - now rewrite length_app.
  - lia.
Qed.

Lemma customers_served_complete a c now1 now2 :
  customers_served (fst (fst (complete_service a c now1 now2))) =
  customers_served a.
Proof.
  unfold complete_service. now destruct (service_start_time c).
Qed.

Lemma customers_served_run ops : forall a,
  List.length (customers_served (fold_left apply_op ops a)) =
  (List.length (customers_served a) + assigned_count a ops)%nat.
Proof.
  induction ops as [| op ops IH]; intros a; cbn.
  - lia.
  - rewrite IH. destruct op as [c now | c now1 now2 | now]; cbn.
    + rewrite customers_served_assign. lia.
    + rewrite customers_served_complete. lia.
    + lia.
Qed.

Lemma assigned_count_spare ops : forall a,
  assigned_count a ops = spare_assign_count a ops.
Proof.
  induction ops as [| op ops IH]; intros a; cbn; [reflexivity |].
  rewrite IH. f_equal. destruct op as [c now | c now1 now2 | now];
    try reflexivity.
  unfold assign_customer.
  now destruct (current_workload a <? workload_limit a).
Qed.

Lemma customers_served_assign_spare a c now :
  current_workload a < workload_limit a ->
  customers_served (fst (fst (assign_customer a c now))) =
    customers_served a ++ [customer_id c].
Proof.
  intros H. apply Z.ltb_lt in H. unfold assign_customer. now rewrite H.
Qed.

(** What every operation keeps: the served count is the workload plus the
    completions so far. *)
Lemma served_load_balance ops : forall a,
  Z.of_nat (List.length (customers_served (fold_left apply_op ops a)))
  - current_workload (fold_left apply_op ops a) =
  Z.of_nat (List.length (customers_served a)) - current_workload a
  + Z.of_nat (completed_count ops).
Proof.
  induction ops as [| op ops IH]; intros a; cbn [fold_left].
  - unfold completed_count. cbn. lia.
  - rewrite IH. unfold completed_count.
    destruct op as [c now | c now1 now2 | now]; cbn [filter apply_op].
    + unfold assign_customer.
      destruct (current_workload a <? workload_limit a); cbn.
      * rewrite length_app. cbn. lia.
      * lia.
    + rewrite customers_served_complete.
      unfold complete_service. destruct (service_start_time c); cbn; lia.
    + cbn. lia.
Qed.

(** C10: the [customers_served] entry of [to_dict] is the length of the
    agent's list.  [assign_customer] on an agent below its limit appends the
    customer, so the length grows by one, and changes nothing on a full
    agent; [complete_service] and [update_status] leave the list alone.  So
    after any history the entry is the number of assignments made below the
    limit, and it equals the current workload plus the number of
    completions: customers still in service are counted as well. *)
Theorem customers_served_counts_assignments (aid nm : string) (limit : Z)
    (created now : datetime) (ops : list AgentOp) (a : Agent) (c : Customer)
    (t1 t2 : datetime) :
  (current_workload a < workload_limit a ->
   customers_served (fst (fst (assign_customer a c t1))) =
     customers_served a ++ [customer_id c] /\
   List.length (customers_served (fst (fst (assign_customer a c t1)))) =
     S (List.length (customers_served a))) /\
  (workload_limit a <= current_workload a ->
   customers_served (fst (fst (assign_customer a c t1))) =
     customers_served a) /\
  customers_served (fst (fst (complete_service a c t1 t2))) =
    customers_served a /\
  customers_served (update_status a t1) = customers_served a /\
  av_customers_served
    (Agent_to_dict (fold_left apply_op ops (Agent_init aid nm limit created))
                   now) =
    spare_assign_count (Agent_init aid nm limit created) ops /\
  Z.of_nat
    (av_customers_served
       (Agent_to_dict
          (fold_left apply_op ops (Agent_init aid nm limit created)) now)) =
    current_workload
      (fold_left apply_op ops (Agent_init aid nm limit created))
    + Z.of_nat (completed_count ops).
Proof.
  split.
  { intros Hlt. rewrite (customers_served_assign_spare a c t1 Hlt).
    split; [reflexivity |]. rewrite length_app. cbn. lia. }
  split.
  { intros Hfull. now rewrite (assign_customer_failure a c t1 Hfull). }
  split; [apply customers_served_complete |].
  split; [reflexivity |].
  split.
  { cbn. rewrite customers_served_run. cbn.
    apply assigned_count_spare. }
  cbn [Agent_to_dict av_customers_served].
  pose proof (served_load_balance ops (Agent_init aid nm limit created)) as H.
  cbn in H. lia.
Qed.

(** ** Instances *)

Lemma agent_invariant_always_witness :
  1 <= 2 /\
  ops_allowed (Agent_init "a1" "Alex" 2 0) sample_ops = true /\
  Forall agent_invariant (run_ops (Agent_init "a1" "Alex" 2 0) sample_ops).
Proof.
  split; [lia |]. split; [reflexivity |].
  apply (agent_invariant_always "a1" "Alex" 2 0 sample_ops);
    [lia | reflexivity].
Defined.

Lemma customers_served_counts_assignments_witness :
  let a := Agent_init "a1" "Alex" 1 0 in
  let c := sample_customer "c1" VIP 10 1000000 in
  let full := fst (fst (assign_customer a c 2000000)) in
  (current_workload a < workload_limit a /\
   customers_served full = ["c1"%string]) /\
  (workload_limit full <= current_workload full /\
   customers_served (fst (fst (assign_customer full c 3000000))) =
     ["c1"%string]) /\
  av_customers_served
    (Agent_to_dict (fold_left apply_op sample_ops
                                (Agent_init "a1" "Alex" 2 0)) 20000000) =
    2%nat.
Proof.
  cbv zeta.
  pose proof (customers_served_counts_assignments "a1" "Alex" 2 0 20000000
                sample_ops (Agent_init "a1" "Alex" 1 0)
                (sample_customer "c1" VIP 10 1000000) 2000000 2000001)
    as (Hspare & _ & _ & _ & Hcount & _).
  pose proof (customers_served_counts_assignments "a1" "Alex" 2 0 20000000
                sample_ops
                (fst (fst (assign_customer (Agent_init "a1" "Alex" 1 0)
                             (sample_customer "c1" VIP 10 1000000) 2000000)))
                (sample_customer "c1" VIP 10 1000000) 3000000 3000001)
    as (_ & Hfull & _).
  assert (Hlt : current_workload (Agent_init "a1" "Alex" 1 0) <
                workload_limit (Agent_init "a1" "Alex" 1 0)) by (cbn; lia).
  assert (Hge : workload_limit
                  (fst (fst (assign_customer (Agent_init "a1" "Alex" 1 0)
                               (sample_customer "c1" VIP 10 1000000)
                               2000000))) <=
                current_workload
                  (fst (fst (assign_customer (Agent_init "a1" "Alex" 1 0)
                               (sample_customer "c1" VIP 10 1000000)
                               2000000)))) by (cbn; lia).
  split; [split; [exact Hlt | exact (proj1 (Hspare Hlt))] |].
  split; [split; [exact Hge | exact (Hfull Hge)] |].
  rewrite Hcount. reflexivity.
Defined.

Lemma assign_customer_spec_witness :
  let a := Agent_init "a1" "Alex" 1 0 in
  let c := sample_customer "c1" VIP 10 1000000 in
  let full := fst (fst (assign_customer a c 2000000)) in
  (current_workload a < workload_limit a /\
   snd (assign_customer a c 2000000) = true /\
   available full = false) /\
  (workload_limit full <= current_workload full /\
   assign_customer full c 3000000 = (full, c, false)).
Proof.
  cbv zeta. split.
  - split; [reflexivity |].
    pose proof (proj1 (assign_customer_spec (Agent_init "a1" "Alex" 1 0)
                         (sample_customer "c1" VIP 10 1000000) 2000000)
                      eq_refl) as H.
    cbv zeta in H. destruct H as (Hok & _ & Hav & _). split; [exact Hok |].
    rewrite Hav. reflexivity.
  - split; [cbn; lia |].
    apply (proj2 (assign_customer_spec _ _ 3000000)). cbn. lia.
Defined.

Lemma complete_service_spec_witness :
  let a := fst (fst (assign_customer (Agent_init "a1" "Alex" 2 0)
                       (sample_customer "c1" VIP 10 1000000) 2000000)) in
  let c := sample_served "c1" VIP 10 1000000 2000000 in
  service_start_time c = Some 2000000 /\
  current_workload a <= workload_limit a /\
  snd (complete_service a c 12000000 12000001) = Return (10000000 # 1000000) /\
  current_workload (fst (fst (complete_service a c 12000000 12000001))) = 0.
Proof.
  cbv zeta. split; [reflexivity |]. split; [cbn; lia |].
  pose proof (complete_service_spec
                (fst (fst (assign_customer (Agent_init "a1" "Alex" 2 0)
                             (sample_customer "c1" VIP 10 1000000) 2000000)))
                (sample_served "c1" VIP 10 1000000 2000000)
                2000000 12000000 12000001 eq_refl) as H.
  cbv zeta in H. destruct H as (Hret & Hw & _); [cbn; lia |].
  split; [exact Hret | exact Hw].
Defined.

Lemma update_status_spec_witness :
  let a := Agent_init "a1" "Alex" 1 0 in
  let full := fst (fst (assign_customer a
                          (sample_customer "c1" VIP 10 1000000) 2000000)) in
  (available a = true /\
   idle_time (update_status a 5000000) =
     (idle_time a + total_seconds (5000000 - last_status_change a)%Z)%Q) /\
  (available full = false /\
   idle_time (update_status full 5000000) = idle_time full) /\
  (agent_invariant full /\
   (available full = false <->
    current_workload full = workload_limit full)).
Proof.
  cbv zeta.
  pose proof (update_status_spec (Agent_init "a1" "Alex" 1 0) 5000000) as Ha.
  pose proof (update_status_spec
                (fst (fst (assign_customer (Agent_init "a1" "Alex" 1 0)
                             (sample_customer "c1" VIP 10 1000000) 2000000)))
                5000000) as Hf.
  cbv zeta in Ha, Hf.
  destruct Ha as (_ & _ & Hidle & _).
  destruct Hf as (_ & Hbusy & _ & Hcap & _).
  split; [| split].
  - split; [reflexivity | apply Hidle; reflexivity].
  - split; [reflexivity | apply Hbusy; reflexivity].
  - assert (Hinv : agent_invariant
                     (fst (fst (assign_customer (Agent_init "a1" "Alex" 1 0)
                          (sample_customer "c1" VIP 10 1000000) 2000000)))).
    { unfold agent_invariant. cbn. split; [lia | reflexivity]. }
    split; [exact Hinv | exact (Hcap Hinv)].
Defined.

(** C9 as first stated fails: an agent with limit 2 that is serving one
    customer has its flag on, and [update_status] does add idle time to
    it. *)
Lemma update_status_busy_accrues_idle :
  let a := fst (fst (assign_customer (Agent_init "a1" "Alex" 2 0)
                       (sample_customer "c1" VIP 10 1000000) 2000000)) in
  agent_invariant a /\
  current_workload a = 1 /\
  customers_served a = ["c1"%string] /\
  idle_time a = 0%Q /\
  (idle_time (update_status a 5000000%Z) == 5)%Q /\
  ~ (idle_time (update_status a 5000000%Z) == idle_time a)%Q.
Proof.
  cbv zeta. split; [| split; [| split; [| split; [| split]]]].
  - unfold agent_invariant. cbn. split; [lia | reflexivity].
  - reflexivity.
  - reflexivity.
  - reflexivity.
  - reflexivity.
  - cbn. unfold Qeq. cbn. discriminate.
Qed.

(** ** The algorithm switch *)

(** C6: [set_algorithm] succeeds on "round_robin", "priority" and
    "shortest_job", making [current_algorithm] the matching scheduling
    function and touching nothing else, and on every other name it replies
    with the error and leaves the state, hence the active algorithm, as it
    was. *)
Theorem set_algorithm_spec (algorithm : string) (st : System) :
  set_algorithm "round_robin" st =
    (with_algorithm st RoundRobinScheduling,
     AlgorithmSet true "Round Robin") /\
  set_algorithm "priority" st =
    (with_algorithm st PriorityScheduling,
     AlgorithmSet true "Priority Scheduling") /\
  set_algorithm "shortest_job" st =
    (with_algorithm st ShortestJobNext,
     AlgorithmSet true "Shortest Job Next") /\
  (forall now,
     run_current_algorithm (with_algorithm st RoundRobinScheduling) now =
       round_robin_scheduling (with_algorithm st RoundRobinScheduling) now /\
     run_current_algorithm (with_algorithm st PriorityScheduling) now =
       priority_scheduling (with_algorithm st PriorityScheduling) now /\
     run_current_algorithm (with_algorithm st ShortestJobNext) now =
       shortest_job_next (with_algorithm st ShortestJobNext) now) /\
  (algorithm <> "round_robin"%string ->
   algorithm <> "priority"%string ->
   algorithm <> "shortest_job"%string ->
   set_algorithm algorithm st = (st, AlgorithmError "Invalid algorithm" 400) /\
   current_algorithm (fst (set_algorithm algorithm st)) =
     current_algorithm st) /\
  ((exists ok nm, snd (set_algorithm algorithm st) = AlgorithmSet ok nm) <->
   (algorithm = "round_robin"%string \/ algorithm = "priority"%string \/
    algorithm = "shortest_job"%string)).
Proof.
  split; [reflexivity |]. split; [reflexivity |]. split; [reflexivity |].
  split; [intros now; repeat split |].
  assert (Hbad : algorithm <> "round_robin"%string ->
                 algorithm <> "priority"%string ->
                 algorithm <> "shortest_job"%string ->
                 set_algorithm algorithm st =
                   (st, AlgorithmError "Invalid algorithm" 400)).
  { intros H1 H2 H3. unfold set_algorithm.
    apply String.eqb_neq in H1, H2, H3. now rewrite H1, H2, H3. }
  split.
  - intros H1 H2 H3. rewrite (Hbad H1 H2 H3). split; reflexivity.
  - split.
    + intros (ok & nm & Hok).
      destruct (String.eqb_spec algorithm "round_robin") as [E1 | N1];
        [now left |].
      destruct (String.eqb_spec algorithm "priority") as [E2 | N2];
        [now (right; left) |].
      destruct (String.eqb_spec algorithm "shortest_job") as [E3 | N3];
        [now (right; right) |].
      rewrite (Hbad N1 N2 N3) in Hok. discriminate.
    + intros [E | [E | E]]; subst algorithm; eexists; eexists; reflexivity.
Qed.

Lemma set_algorithm_spec_witness :
  let st := with_algorithm (sample_system [] []) PriorityScheduling in
  set_algorithm "bogus" st = (st, AlgorithmError "Invalid algorithm" 400) /\
  current_algorithm (fst (set_algorithm "bogus" st)) = PriorityScheduling.
Proof.
  cbv zeta.
  pose proof (set_algorithm_spec "bogus"
                (with_algorithm (sample_system [] []) PriorityScheduling))
    as (_ & _ & _ & _ & Hbad & _).
  apply Hbad; discriminate.
Defined.

(** ** Python library behaviour *)

Lemma tuple_lt_spec a b :
  tuple_lt a b = true <->
  fst a < fst b \/ (fst a = fst b /\ snd a < snd b).
Proof.
  unfold tuple_lt.
  rewrite orb_true_iff, andb_true_iff, !Z.ltb_lt, Z.eqb_eq. tauto.
Qed.

Lemma tuple_le_spec a b :
  tuple_le a b = true <->
  fst a < fst b \/ (fst a = fst b /\ snd a <= snd b).
Proof.
  unfold tuple_le. rewrite negb_true_iff.
  destruct (tuple_lt b a) eqn:E.
  - apply tuple_lt_spec in E. split; [discriminate | lia].
  - split; [intros _ | reflexivity].
    assert (H : ~ (fst b < fst a \/ (fst b = fst a /\ snd b < snd a))).
    { rewrite <- tuple_lt_spec. rewrite E. discriminate. }
    lia.
Qed.

Section ListSortFacts.
Context {A : Type} (key : A -> Z * Z).

Lemma key_le_trans x y z : 
  key_le key x y -> key_le key y z -> key_le key x z.
Proof. unfold key_le. rewrite !tuple_le_spec. lia. Qed.

Lemma key_le_antisym x y :
  key_le key x y -> key_le key y x -> key x = key y.
Proof.
  unfold key_le. rewrite !tuple_le_spec. intros H1 H2.
  destruct (key x), (key y); cbn in *. f_equal; lia.
Qed.

Lemma key_eqb_spec k x : key_eqb key k x = true <-> key x = k.
Proof.
  unfold key_eqb. rewrite andb_true_iff, !Z.eqb_eq.
  destruct (key x), k; cbn. split; [intros []; f_equal; lia |].
  intros E. inversion E. lia.
Qed.

Lemma insert_sorted_perm x l : Permutation (x :: l) (insert_sorted key x l).
Proof.
  induction l as [| y l IH]; cbn.
  - apply Permutation_refl.
  - destruct (tuple_lt (key y) (key x)).
    + eapply perm_trans; [apply perm_swap |]. now apply perm_skip.
    + apply Permutation_refl.
Qed.

Lemma list_sort_perm l : Permutation l (list_sort key l).
Proof.
  induction l as [| x l IH]; cbn.
  - constructor.
  - eapply perm_trans; [| apply insert_sorted_perm]. now apply perm_skip.
Qed.

Lemma insert_sorted_sorted x l :
  StronglySorted (key_le key) l ->
  StronglySorted (key_le key) (insert_sorted key x l).
Proof.
  induction 1 as [| y l Hs IH Hall]; cbn.
  - repeat constructor.
  - destruct (tuple_lt (key y) (key x)) eqn:E.
    + constructor; [exact IH |].
      apply (Permutation_Forall (insert_sorted_perm x l)).
      constructor; [| exact Hall].
      unfold key_le. apply tuple_le_spec.
      apply tuple_lt_spec in E. lia.
    + assert (Hxy : key_le key x y)
      by (unfold key_le, tuple_le; now rewrite E).
      constructor; [now constructor |].
      constructor; [exact Hxy |].
      eapply Forall_impl; [| exact Hall].
      intros z Hz. now apply key_le_trans with y.
Qed.

Lemma list_sort_sorted l : StronglySorted (key_le key) (list_sort key l).
Proof.
  induction l as [| x l IH]; cbn.
  - constructor.
  - now apply insert_sorted_sorted.
Qed.

Lemma insert_sorted_filter k x l :
  filter (key_eqb key k) (insert_sorted key x l) =
  filter (key_eqb key k) (x :: l).
Proof.
  induction l as [| y l IH]; [reflexivity |].
  cbn [insert_sorted].
  destruct (tuple_lt (key y) (key x)) eqn:E; [| reflexivity].
  cbn [filter] in *. rewrite IH.
  destruct (key_eqb key k x) eqn:Ex; [| reflexivity].
  destruct (key_eqb key k y) eqn:Ey; [| reflexivity].
  apply key_eqb_spec in Ex. apply key_eqb_spec in Ey.
  apply tuple_lt_spec in E. rewrite Ex, Ey in E. lia.
Qed.

Lemma list_sort_stable l : stable_reorder key l (list_sort key l).
Proof.
  intros k. induction l as [| x l IH]; [reflexivity |].
  cbn [list_sort]. rewrite insert_sorted_filter. cbn [filter].
  now rewrite IH.
Qed.

Lemma filter_nil_not_in k (l : list A) x :
  filter (key_eqb key k) l = [] -> In x l -> key x <> k.
Proof.
  intros Hf Hin Hk.
  assert (Hx : In x (filter (key_eqb key k) l)).
  { apply filter_In. split; [exact Hin | now apply key_eqb_spec]. }
  rewrite Hf in Hx. exact Hx.
Qed.

(** Two sorted lists with the same items in the same order under every
    key are the same list: the result of a stable sort is determined. *)
Lemma sorted_stable_eq l1 : forall l2,
  StronglySorted (key_le key) l1 -> StronglySorted (key_le key) l2 ->
  (forall k, filter (key_eqb key k) l1 = filter (key_eqb key k) l2) ->
  l1 = l2.
Proof.
  induction l1 as [| x l1 IH]; intros l2 Hs1 Hs2 Hf.
  - destruct l2 as [| y l2]; [reflexivity |].
    specialize (Hf (key y)). cbn in Hf.
    assert (Ey : key_eqb key (key y) y = true) by now apply key_eqb_spec.
    rewrite Ey in Hf. discriminate.
  - destruct l2 as [| y l2].
    + specialize (Hf (key x)). cbn in Hf.
      assert (Ex : key_eqb key (key x) x = true) by now apply key_eqb_spec.
      rewrite Ex in Hf. discriminate.
    + inversion Hs1 as [| ? ? Hs1' Hall1]; subst.
      inversion Hs2 as [| ? ? Hs2' Hall2]; subst.
      assert (Ex : key_eqb key (key x) x = true) by now apply key_eqb_spec.
      assert (Ey : key_eqb key (key y) y = true) by now apply key_eqb_spec.
      assert (Hxy : key x = key y).
      { apply key_le_antisym.
        - assert (Hin : In y (x :: l1)).
          { assert (H : In y (filter (key_eqb key (key y)) (x :: l1))).
            { rewrite (Hf (key y)). cbn. rewrite Ey. now left. }
            apply filter_In in H. tauto. }
          destruct Hin as [-> | Hin].
          + unfold key_le. apply tuple_le_spec. lia.
          + rewrite Forall_forall in Hall1. now apply Hall1.
        - assert (Hin : In x (y :: l2)).
          { assert (H : In x (filter (key_eqb key (key x)) (y :: l2))).
            { rewrite <- (Hf (key x)). cbn. rewrite Ex. now left. }
            apply filter_In in H. tauto. }
          destruct Hin as [-> | Hin].
          + unfold key_le. apply tuple_le_spec. lia.
          + rewrite Forall_forall in Hall2. now apply Hall2. }
      assert (Exy : key_eqb key (key x) y = true)
        by (apply key_eqb_spec; congruence).
      pose proof (Hf (key x)) as Hh. cbn in Hh. rewrite Ex, Exy in Hh.
      inversion Hh as [[Heq Htl]]. f_equal.
      apply IH; [assumption | assumption |].
      intros k. specialize (Hf k). cbn in Hf.
      destruct (key_eqb key k y) eqn:Eky.
      * assert (Ekx : key_eqb key k y = true) by exact Eky.
        rewrite <- Heq in Ekx. rewrite Ekx in Hf. now inversion Hf.
      * assert (Ekx : key_eqb key k y = false) by exact Eky.
        rewrite <- Heq in Ekx. rewrite Ekx in Hf. exact Hf.
Qed.

(** Any reordering that is sorted by the key and stable is the one
    [list_sort] computes. *)
Lemma stable_sort_unique l l' :
  StronglySorted (key_le key) l' -> stable_reorder key l l' ->
  l' = list_sort key l.
Proof.
  intros Hs Hst. apply sorted_stable_eq.
  - exact Hs.
  - apply list_sort_sorted.
  - intros k. rewrite (Hst k). symmetry. apply list_sort_stable.
Qed.

Lemma list_sort_head_least l c rest :
  list_sort key l = c :: rest ->
  forall x, In x rest -> (key_le key) c x.
Proof.
  intros E x Hin. pose proof (list_sort_sorted l) as Hs. rewrite E in Hs.
  inversion Hs as [| ? ? _ Hall]; subst.
  rewrite Forall_forall in Hall. now apply Hall.
Qed.

Lemma list_sort_nonempty x l : list_sort key (x :: l) <> [].
Proof.
  intros E. pose proof (list_sort_perm (x :: l)) as Hp. rewrite E in Hp.
  apply Permutation_sym, Permutation_nil in Hp. discriminate.
Qed.
End ListSortFacts.

(** [max] and [min] with a key *)

Lemma py_max_from_split {A : Type} (key : A -> Z) (l : list A) :
  forall best,
  exists l1 l2,
    best :: l = l1 ++ py_max_from key best l :: l2 /\
    (forall x, In x l1 -> key x < key (py_max_from key best l)) /\
    (forall x, In x l2 -> key x <= key (py_max_from key best l)).
Proof.
  induction l as [| x l IH]; intros best; cbn [py_max_from].
  - exists [], []. repeat split; intros y [].
  - destruct (Z.ltb_spec (key best) (key x)) as [Hlt | Hge].
    + destruct (IH x) as (l1 & l2 & Heq & H1 & H2).
      exists (best :: l1), l2. split; [cbn; now rewrite Heq |].
      split; [| exact H2].
      intros y [<- | Hy]; [| now apply H1].
      destruct l1 as [| z l1]; cbn in Heq; injection Heq as Hx Hl.
      * rewrite <- Hx. exact Hlt.
      * pose proof (H1 z (or_introl eq_refl)) as Hz. rewrite <- Hx in Hz.
        lia.
    + destruct (IH best) as (l1 & l2 & Heq & H1 & H2).
      destruct l1 as [| z l1]; cbn in Heq; injection Heq as Hb Hl.
      * exists [], (x :: l). split; [cbn; now rewrite <- Hb |].
        split; [intros y [] |].
        intros y [<- | Hy].
        -- rewrite <- Hb. exact Hge.
        -- apply H2. rewrite <- Hl. exact Hy.
      * exists (best :: x :: l1), l2. split; [cbn; do 2 f_equal; exact Hl |].
        split; [| exact H2].
        pose proof (H1 z (or_introl eq_refl)) as Hbest. rewrite <- Hb in Hbest.
        intros y [<- | [<- | Hy]]; [exact Hbest | lia |].
        apply H1. now right.
Qed.

Lemma py_min_from_as_max {A : Type} (key : A -> Z) (l : list A) :
  forall best,
  py_min_from key best l = py_max_from (fun x => - key x) best l.
Proof.
  induction l as [| x l IH]; intros best; cbn; [reflexivity |].
  rewrite IH. f_equal.
  destruct (Z.ltb_spec (key x) (key best)),
           (Z.ltb_spec (- key best) (- key x)); try reflexivity; lia.
Qed.

(** In-place replacement *)

Lemma list_set_same {A : Type} (l : list A) : forall i x,
  (i < List.length l)%nat -> nth_error (list_set l i x) i = Some x.
Proof.
  induction l as [| y l IH]; intros [| i] x Hi; cbn in *; try lia.
  - reflexivity.
  - apply IH. lia.
Qed.

Lemma list_set_other {A : Type} (l : list A) : forall i j x,
  j <> i -> nth_error (list_set l i x) j = nth_error l j.
Proof.
  induction l as [| y l IH]; intros [| i] [| j] x Hne; cbn;
    try reflexivity; try congruence.
  apply IH. congruence.
Qed.

Lemma list_set_length {A : Type} (l : list A) : forall i x,
  List.length (list_set l i x) = List.length l.
Proof.
  induction l as [| y l IH]; intros [| i] x; cbn; try reflexivity.
  now rewrite IH.
Qed.

(** The available agents, with their positions *)

Lemma in_combine_seq {A : Type} (l : list A) : forall s j b,
  In (j, b) (combine (seq s (List.length l)) l) <->
  (s <= j)%nat /\ nth_error l (j - s) = Some b.
Proof.
  induction l as [| y l IH]; intros s j b; cbn.
  - split; [intros [] |]. intros [_ H]. destruct (j - s)%nat; discriminate.
  - rewrite IH. split.
    + intros [E | [Hle Hn]].
      * inversion E; subst. rewrite Nat.sub_diag. split; [lia | reflexivity].
      * split; [lia |].
        replace (j - s)%nat with (S (j - S s)) by lia. exact Hn.
    + intros [Hle Hn]. destruct (Nat.eq_dec j s) as [-> | Hne].
      * left. rewrite Nat.sub_diag in Hn. cbn in Hn. congruence.
      * right. split; [lia |].
        replace (j - s)%nat with (S (j - S s)) in Hn by lia. exact Hn.
Qed.

Lemma combine_seq_sorted {A : Type} (l : list A) : forall s,
  StronglySorted position_lt (combine (seq s (List.length l)) l).
Proof.
  induction l as [| y l IH]; intros s; cbn; constructor.
  - apply IH.
  - apply Forall_forall. intros [j b] Hin.
    apply in_combine_seq in Hin. unfold position_lt. cbn. lia.
Qed.

Lemma filter_sorted {A : Type} (R : A -> A -> Prop) (f : A -> bool) l :
  StronglySorted R l -> StronglySorted R (filter f l).
Proof.
  induction 1 as [| x l Hs IH Hall]; cbn; [constructor |].
  destruct (f x); [| exact IH].
  constructor; [exact IH |].
  apply Forall_forall. intros y Hy. apply filter_In in Hy.
  rewrite Forall_forall in Hall. now apply Hall.
Qed.

Lemma in_available_agents ags j b :
  In (j, b) (available_agents ags) <->
  nth_error ags j = Some b /\ available b = true.
Proof.
  unfold available_agents. rewrite filter_In, in_combine_seq. cbn.
  rewrite Nat.sub_0_r. split; [tauto |]. intros [H1 H2].
  split; [split; [lia | exact H1] | exact H2].
Qed.

Lemma available_agents_sorted ags :
  StronglySorted position_lt (available_agents ags).
Proof. apply filter_sorted, combine_seq_sorted. Qed.

Lemma sorted_split_positions {A : Type} (l1 : list (nat * A)) r l2 :
  StronglySorted position_lt (l1 ++ r :: l2) ->
  (forall x, In x l1 -> (fst x < fst r)%nat) /\
  (forall x, In x l2 -> (fst r < fst x)%nat).
Proof.
  induction l1 as [| y l1 IH]; cbn; intros Hs.
  - inversion Hs as [| ? ? _ Hall]; subst. split; [intros x [] |].
    intros x Hx. rewrite Forall_forall in Hall. now apply Hall.
  - inversion Hs as [| ? ? Hs' Hall]; subst.
    destruct (IH Hs') as [H1 H2]. split; [| exact H2].
    intros x [<- | Hx]; [| now apply H1].
    rewrite Forall_forall in Hall. apply Hall.
    apply in_or_app. right. now left.
Qed.

(** The agent that [max(available_agents, key=...)] returns: an available
    agent of the pool whose key no available agent exceeds and no earlier
    available agent reaches. *)
Lemma py_max_available (key : Agent -> Z) ags first others :
  available_agents ags = first :: others ->
  forall i agent,
  py_max_from (fun ia => key (snd ia)) first others = (i, agent) ->
  nth_error ags i = Some agent /\
  available agent = true /\
  forall j b, nth_error ags j = Some b -> available b = true ->
    key b <= key agent /\ ((j < i)%nat -> key b < key agent).
Proof.
  intros Hav i agent Hmax.
  destruct (py_max_from_split (fun ia => key (snd ia)) others first)
    as (l1 & l2 & Heq & H1 & H2).
  rewrite Hmax in Heq, H1, H2. cbn [snd] in H1, H2.
  assert (Hin : In (i, agent) (available_agents ags)).
  { rewrite Hav, Heq. apply in_or_app. right. now left. }
  apply in_available_agents in Hin. destruct Hin as [Hnth Hflag].
  split; [exact Hnth |]. split; [exact Hflag |].
  intros j b Hj Hb.
  assert (Hjb : In (j, b) (l1 ++ (i, agent) :: l2)).
  { rewrite <- Heq, <- Hav. apply in_available_agents. now split. }
  pose proof (available_agents_sorted ags) as Hs. rewrite Hav, Heq in Hs.
  apply sorted_split_positions in Hs. destruct Hs as [Hbefore Hafter].
  apply in_app_or in Hjb. destruct Hjb as [Hl1 | [E | Hl2]].
  - specialize (H1 _ Hl1). cbn in H1. split; [lia | intros _; exact H1].
  - inversion E; subst. split; [lia | lia].
  - specialize (H2 _ Hl2). specialize (Hafter _ Hl2). cbn in *.
    split; [exact H2 | lia].
Qed.

Lemma available_agents_nonempty ags a :
  In a ags -> available a = true -> available_agents ags <> [].
Proof.
  intros Hin Hflag E. apply In_nth_error in Hin. destruct Hin as [j Hj].
  assert (H : In (j, a) (available_agents ags))
    by (apply in_available_agents; now split).
  rewrite E in H. exact H.
Qed.

(** ** The scheduling algorithms *)

Lemma priority_key_order a b :
  key_le priority_key a b <-> priority_order a b.
Proof.
  unfold key_le, priority_order, priority_key.
  rewrite tuple_le_spec. cbn. lia.
Qed.

Lemma shortest_job_key_order a b :
  key_le shortest_job_key a b <-> shortest_job_order a b.
Proof.
  unfold key_le, shortest_job_order, shortest_job_key.
  rewrite tuple_le_spec. cbn. lia.
Qed.

Lemma sorted_by_order (key : Customer -> Z * Z)
    (order : Customer -> Customer -> Prop) l :
  (forall a b, key_le key a b <-> order a b) ->
  StronglySorted order (list_sort key l).
Proof.
  intros Hiff. pose proof (list_sort_sorted key l) as Hs.
  induction Hs as [| x l' Hs IH Hall]; constructor; [exact IH |].
  eapply Forall_impl; [| exact Hall]. intros y Hy. now apply Hiff.
Qed.

(** C2: with a non-empty queue and an available agent,
    [priority_scheduling] reorders the whole queue by priority level
    descending then arrival time ascending, stably; picks the first
    available agent of the pool with the largest
    [workload_limit - current_workload]; pops the
    head of the reordered queue and assigns it to that agent.  So every item
    left in the queue has a level no higher than the popped item's, and an
    arrival no earlier when the levels are equal; in particular a VIP is
    never left behind a popped Normal item. *)
Theorem priority_scheduling_spec (st : System) (now : datetime) :
  waiting_queue st <> [] ->
  (exists a, In a (agents st) /\ available a = true) ->
  exists (i : nat) (agent : Agent) (customer : Customer)
         (rest : list Customer),
    Permutation (waiting_queue st) (customer :: rest) /\
    StronglySorted priority_order (customer :: rest) /\
    stable_reorder priority_key (waiting_queue st) (customer :: rest) /\
    nth_error (agents st) i = Some agent /\
    available agent = true /\
    (forall j b, nth_error (agents st) j = Some b -> available b = true ->
       workload_limit b - current_workload b <=
         workload_limit agent - current_workload agent /\
       ((j < i)%nat ->
        workload_limit b - current_workload b <
          workload_limit agent - current_workload agent)) /\
    snd (priority_scheduling st now) =
      Return (Some (snd (fst (assign_customer agent customer now)))) /\
    waiting_queue (fst (priority_scheduling st now)) = rest /\
    nth_error (agents (fst (priority_scheduling st now))) i =
      Some (fst (fst (assign_customer agent customer now))) /\
    (forall j, j <> i ->
       nth_error (agents (fst (priority_scheduling st now))) j =
       nth_error (agents st) j) /\
    (forall x, In x rest ->
       priority_level x <= priority_level customer /\
       (priority_level x = priority_level customer ->
        arrival_time customer <= arrival_time x)) /\
    (forall x, In x rest -> priority x = VIP -> priority customer = VIP).
Proof.
  intros Hq (a & Hin & Hav).
  destruct (waiting_queue st) as [| c0 q0] eqn:Eq; [congruence |].
  destruct (list_sort priority_key (c0 :: q0)) as [| customer rest] eqn:Es;
    [exfalso; now apply (list_sort_nonempty priority_key c0 q0) |].
  destruct (available_agents (agents st)) as [| first others] eqn:Ea;
    [exfalso; now apply (available_agents_nonempty (agents st) a) |].
  destruct (py_max_from (fun ia => spare_capacity (snd ia)) first others)
    as [i agent] eqn:Em.
  destruct (py_max_available spare_capacity _ _ _ Ea _ _ Em)
    as (Hnth & Hflag & Hbest).
  unfold spare_capacity in Hbest.
  assert (Hrest : forall x, In x rest ->
            priority_level x <= priority_level customer /\
            (priority_level x = priority_level customer ->
             arrival_time customer <= arrival_time x)).
  { intros x Hx.
    pose proof (list_sort_head_least priority_key _ _ _ Es x Hx) as Hle.
    apply priority_key_order in Hle. unfold priority_order in Hle. lia. }
  exists i, agent, customer, rest.
  split; [rewrite <- Es; apply list_sort_perm |].
  split; [rewrite <- Es; apply sorted_by_order, priority_key_order |].
  split; [rewrite <- Es; apply list_sort_stable |].
  split; [exact Hnth |]. split; [exact Hflag |]. split; [exact Hbest |].
  unfold priority_scheduling. rewrite Eq. cbn [agents waiting_queue].
  rewrite Ea, Em, Es. cbn [pop0].
  destruct (assign_customer agent customer now) as [[agent' customer'] ok].
  cbn. split; [reflexivity |]. split; [reflexivity |].
  split.
  { apply list_set_same. apply nth_error_Some. congruence. }
  split; [intros j Hj; now apply list_set_other |].
  split; [exact Hrest |].
  intros x Hx Hvip. destruct (Hrest x Hx) as [Hle _].
  unfold priority_level in Hle. rewrite Hvip in Hle.
  destruct (priority customer); cbn in Hle; [reflexivity | lia | lia].
Qed.

(** C3: with a non-empty queue and an available agent,
    [shortest_job_next] reorders the whole queue by service time ascending
    then priority level descending, stably; picks the first available agent
    of the pool with the smallest workload; pops the head of the reordered
    queue and assigns it to that agent.  So no item left in the queue has a
    strictly smaller service time than the popped one. *)
Theorem shortest_job_next_spec (st : System) (now : datetime) :
  waiting_queue st <> [] ->
  (exists a, In a (agents st) /\ available a = true) ->
  exists (i : nat) (agent : Agent) (customer : Customer)
         (rest : list Customer),
    Permutation (waiting_queue st) (customer :: rest) /\
    StronglySorted shortest_job_order (customer :: rest) /\
    stable_reorder shortest_job_key (waiting_queue st) (customer :: rest) /\
    nth_error (agents st) i = Some agent /\
    available agent = true /\
    (forall j b, nth_error (agents st) j = Some b -> available b = true ->
       current_workload agent <= current_workload b /\
       ((j < i)%nat -> current_workload agent < current_workload b)) /\
    snd (shortest_job_next st now) =
      Return (Some (snd (fst (assign_customer agent customer now)))) /\
    waiting_queue (fst (shortest_job_next st now)) = rest /\
    nth_error (agents (fst (shortest_job_next st now))) i =
      Some (fst (fst (assign_customer agent customer now))) /\
    (forall j, j <> i ->
       nth_error (agents (fst (shortest_job_next st now))) j =
       nth_error (agents st) j) /\
    (forall x, In x rest -> service_time customer <= service_time x) /\
    (forall x, In x rest -> service_time x = service_time customer ->
       priority_level x <= priority_level customer).
Proof.
  intros Hq (a & Hin & Hav).
  destruct (waiting_queue st) as [| c0 q0] eqn:Eq; [congruence |].
  destruct (list_sort shortest_job_key (c0 :: q0)) as [| customer rest]
    eqn:Es;
    [exfalso; now apply (list_sort_nonempty shortest_job_key c0 q0) |].
  destruct (available_agents (agents st)) as [| first others] eqn:Ea;
    [exfalso; now apply (available_agents_nonempty (agents st) a) |].
  destruct (py_min_from (fun ia => current_workload (snd ia)) first others)
    as [i agent] eqn:Em.
  pose proof Em as Emax. rewrite py_min_from_as_max in Emax.
  destruct (py_max_available (fun b => - current_workload b) _ _ _ Ea _ _ Emax)
    as (Hnth & Hflag & Hbest).
  assert (Hrest : forall x, In x rest -> shortest_job_order customer x).
  { intros x Hx. apply shortest_job_key_order.
    exact (list_sort_head_least shortest_job_key _ _ _ Es x Hx). }
  exists i, agent, customer, rest.
  split; [rewrite <- Es; apply list_sort_perm |].
  split; [rewrite <- Es; apply sorted_by_order, shortest_job_key_order |].
  split; [rewrite <- Es; apply list_sort_stable |].
  split; [exact Hnth |]. split; [exact Hflag |].
  split.
  { intros j b Hj Hb. specialize (Hbest j b Hj Hb). lia. }
  unfold shortest_job_next. rewrite Eq. cbn [agents waiting_queue].
  rewrite Ea, Em, Es. cbn [pop0].
  destruct (assign_customer agent customer now) as [[agent' customer'] ok].
  cbn. split; [reflexivity |]. split; [reflexivity |].
  split.
  { apply list_set_same. apply nth_error_Some. congruence. }
  split; [intros j Hj; now apply list_set_other |].
  split.
  - intros x Hx. specialize (Hrest x Hx). unfold shortest_job_order in Hrest.
    lia.
  - intros x Hx He. specialize (Hrest x Hx).
    unfold shortest_job_order in Hrest. lia.
Qed.

(** ** Metrics *)

Lemma Int_part_IZR z : Int_part (IZR z) = z.
Proof.
  unfold Int_part.
  rewrite <- (tech_up (IZR z) (z + 1)); [lia | |]; rewrite plus_IZR; lra.
Qed.

Lemma Rround_half_even_IZR z : Rround_half_even (IZR z) = z.
Proof.
  unfold Rround_half_even. rewrite Int_part_IZR.
  destruct (Rlt_dec (IZR z - IZR z) (1 / 2)); [reflexivity | exfalso; lra].
Qed.

Lemma Rround2_hundredths z : Rround2 (IZR z / 100) = (IZR z / 100)%R.
Proof.
  unfold Rround2. replace (IZR z / 100 * 100)%R with (IZR z) by lra.
  now rewrite Rround_half_even_IZR.
Qed.

Lemma Rround2_IZR z : Rround2 (IZR z) = IZR z.
Proof.
  replace (IZR z) with (IZR (z * 100) / 100)%R by (rewrite mult_IZR; lra).
  apply Rround2_hundredths.
Qed.

Lemma fold_left_Zadd_total xs : forall a,
  IZR (fold_left Z.add xs a) = (IZR a + total xs)%R.
Proof.
  induction xs as [| x xs IH]; intros a; cbn.
  - lra.
  - rewrite IH, plus_IZR. lra.
Qed.

Lemma fold_left_squares mu xs : forall a,
  fold_left Rplus (map (fun w => ((IZR w - mu) ^ 2)%R) xs) a =
  (a + squared_deviations mu xs)%R.
Proof.
  induction xs as [| x xs IH]; intros a; cbn.
  - lra.
  - rewrite IH. lra.
Qed.

(** The computation of [get_metrics] is the population standard deviation
    of the specification. *)
Lemma fairness_score_spec ags :
  fairness_score ags = spec_fairness (map current_workload ags).
Proof.
  unfold fairness_score, spec_fairness, spec_population_stddev.
  destruct (map current_workload ags) as [| w ws]; [reflexivity |].
  unfold Zsum, Rsum. rewrite fold_left_Zadd_total, fold_left_squares.
  rewrite !Rplus_0_l. reflexivity.
Qed.

Lemma total_const w xs :
  (forall x, In x xs -> x = w) ->
  total xs = (INR (List.length xs) * IZR w)%R.
Proof.
  induction xs as [| x xs IH]; intros Hall.
  - cbn. lra.
  - cbn [total List.length]. rewrite S_INR, IH.
    + rewrite (Hall x (or_introl eq_refl)). lra.
    + intros y Hy. apply Hall. now right.
Qed.

Lemma squared_deviations_const w xs :
  (forall x, In x xs -> x = w) -> squared_deviations (IZR w) xs = 0%R.
Proof.
  induction xs as [| x xs IH]; intros Hall; cbn; [reflexivity |].
  rewrite IH by (intros y Hy; apply Hall; now right).
  rewrite (Hall x (or_introl eq_refl)). lra.
Qed.

Lemma spec_fairness_equal_loads w xs :
  (forall x, In x xs -> x = w) -> spec_fairness xs = 100%R.
Proof.
  intros Hall. destruct xs as [| x xs]; [reflexivity |].
  unfold spec_fairness, spec_population_stddev.
  assert (Hn : (0 < INR (List.length (x :: xs)))%R)
    by (apply lt_0_INR; cbn; lia).
  rewrite (total_const w) by exact Hall.
  replace (INR (List.length (x :: xs)) * IZR w
           / INR (List.length (x :: xs)))%R with (IZR w)
    by (field; lra).
  rewrite (squared_deviations_const w) by exact Hall.
  replace (0 / INR (List.length (x :: xs)))%R with 0%R by (field; lra).
  rewrite sqrt_0. lra.
Qed.

Lemma sample_skewed_fairness :
  fairness_score [sample_loaded "a" 3 3; sample_loaded "b" 3 0] = (-50)%R.
Proof.
  rewrite fairness_score_spec.
  replace (map current_workload
             [sample_loaded "a" 3 3; sample_loaded "b" 3 0])
    with [3; 0] by reflexivity.
  unfold spec_fairness, spec_population_stddev.
  cbn [total squared_deviations List.length INR].
  match goal with
  | |- context [sqrt ?v] =>
      replace v with ((3 / 2) * (3 / 2))%R by field
  end.
  rewrite sqrt_square by lra. lra.
Qed.

Lemma sample_uneven_fairness :
  fairness_score [sample_loaded "a" 2 0; sample_loaded "b" 2 0;
                  sample_loaded "c" 2 1] =
  (100 - 100 * sqrt (2 / 9))%R.
Proof.
  rewrite fairness_score_spec.
  replace (map current_workload
             [sample_loaded "a" 2 0; sample_loaded "b" 2 0;
              sample_loaded "c" 2 1])
    with [0; 0; 1] by reflexivity.
  unfold spec_fairness, spec_population_stddev.
  cbn [total squared_deviations List.length INR].
  do 3 f_equal. field.
Qed.

Lemma sqrt_two_ninths_bounds :
  (4714 / 10000 < sqrt (2 / 9) < 4715 / 10000)%R.
Proof.
  split.
  - rewrite <- (sqrt_square (4714 / 10000)) by lra.
    apply sqrt_lt_1_alt. lra.
  - rewrite <- (sqrt_square (4715 / 10000)) by lra.
    apply sqrt_lt_1_alt. lra.
Qed.

(** C7 (as amended): the fairness score in the reply of [get_metrics] is
    [100 - 100 * stddev], with the population standard deviation of the
    agents' workloads, rounded to two decimals and not clamped; it is 100 for
    an empty pool and whenever all agents carry the same workload, and it is
    negative for some pools. *)
Theorem fairness_score_reported (st : System) (clock : nat -> datetime) :
  metrics_fairness_score (get_metrics st clock) =
    Rround2 (spec_fairness (map current_workload (agents st))) /\
  (agents st <> [] ->
   metrics_fairness_score (get_metrics st clock) =
     Rround2 (100 - 100 * spec_population_stddev
                            (map current_workload (agents st)))) /\
  (agents st = [] ->
   metrics_fairness_score (get_metrics st clock) = 100%R) /\
  (forall w, (forall a, In a (agents st) -> current_workload a = w) ->
   metrics_fairness_score (get_metrics st clock) = 100%R) /\
  (metrics_fairness_score
     (get_metrics
        (sample_system [sample_loaded "a" 3 3; sample_loaded "b" 3 0] [])
        clock) < 0)%R.
Proof.
  cbn [get_metrics metrics_fairness_score].
  split; [now rewrite fairness_score_spec |].
  split.
  { intros Hne. rewrite fairness_score_spec. unfold spec_fairness.
    destruct (agents st); [congruence | reflexivity]. }
  split.
  { intros E. rewrite E. cbn. apply (Rround2_IZR 100). }
  split.
  { intros w Hall. rewrite fairness_score_spec.
    rewrite (spec_fairness_equal_loads w).
    - apply (Rround2_IZR 100).
    - intros x Hx. apply in_map_iff in Hx. destruct Hx as (a & <- & Ha).
      now apply Hall. }
  cbn [sample_system agents]. rewrite sample_skewed_fairness.
  rewrite (Rround2_IZR (-50)). lra.
Qed.

Lemma fairness_score_reported_witness :
  let st := sample_system [sample_loaded "a" 2 1; sample_loaded "b" 2 1] [] in
  (forall a, In a (agents st) -> current_workload a = 1) /\
  agents st <> [] /\
  metrics_fairness_score (get_metrics st (fun _ => 0)) = 100%R /\
  metrics_fairness_score (get_metrics st (fun _ => 0)) =
    Rround2 (100 - 100 * spec_population_stddev
                           (map current_workload (agents st))) /\
  metrics_fairness_score (get_metrics (sample_system [] []) (fun _ => 0)) =
    100%R.
Proof.
  cbv zeta.
  assert (Hall : forall a,
            In a (agents (sample_system
                            [sample_loaded "a" 2 1; sample_loaded "b" 2 1]
                            [])) ->
            current_workload a = 1).
  { intros a [<- | [<- | []]]; reflexivity. }
  assert (Hne : agents (sample_system
                          [sample_loaded "a" 2 1; sample_loaded "b" 2 1] [])
                <> []) by discriminate.
  split; [exact Hall |]. split; [exact Hne |].
  pose proof (fairness_score_reported
                (sample_system [sample_loaded "a" 2 1; sample_loaded "b" 2 1]
                               [])
                (fun _ => 0)) as (_ & Hround & _ & Heq & _).
  pose proof (fairness_score_reported (sample_system [] []) (fun _ => 0))
    as (_ & _ & Hempty & _).
  split; [exact (Heq 1 Hall) |].
  split; [exact (Hround Hne) | exact (Hempty eq_refl)].
Defined.

(** C7 as first stated fails: for workloads 0, 0 and 1 the reply carries the
    score rounded to two decimals, which is not [100 - 100 * stddev]. *)
Lemma fairness_score_reported_is_rounded :
  let st := sample_system [sample_loaded "a" 2 0; sample_loaded "b" 2 0;
                           sample_loaded "c" 2 1] [] in
  map current_workload (agents st) = [0; 0; 1] /\
  metrics_fairness_score (get_metrics st (fun _ => 0)) <>
  (100 - 100 * spec_population_stddev (map current_workload (agents st)))%R.
Proof.
  cbv zeta. split; [reflexivity |].
  cbn [get_metrics metrics_fairness_score sample_system agents].
  pose proof sample_uneven_fairness as Hf.
  rewrite fairness_score_spec in Hf. unfold spec_fairness in Hf.
  cbn [map] in Hf. cbn [map]. rewrite fairness_score_spec.
  unfold spec_fairness. cbn [map]. rewrite Hf.
  unfold Rround2.
  set (k := Rround_half_even ((100 - 100 * sqrt (2 / 9)) * 100)).
  intros Hk. pose proof sqrt_two_ninths_bounds as [Hlo Hhi].
  assert (H1 : (IZR 5285 < IZR k)%R) by lra.
  assert (H2 : (IZR k < IZR 5286)%R) by lra.
  apply lt_IZR in H1, H2. lia.
Qed.

Lemma round_half_even_zero q : Qnum q = 0 -> round_half_even q = 0.
Proof.
  destruct q as [n d]. cbn. intros ->. reflexivity.
Qed.

(** An agent that never completed a service has utilization 0 whatever the
    clock reads. *)
Lemma calculate_utilization_rate_unused a now :
  Qnum (total_service_time a) = 0 -> calculate_utilization_rate a now = 0%Q.
Proof.
  intros H. unfold calculate_utilization_rate.
  destruct (Qlt_bool _ _); [| reflexivity].
  unfold py_round2. rewrite round_half_even_zero; [reflexivity |].
  cbn. rewrite H. reflexivity.
Qed.

Lemma utilization_rates_ext ags clock1 clock2 :
  (forall k a, nth_error ags k = Some a ->
     calculate_utilization_rate a (clock1 k) =
     calculate_utilization_rate a (clock2 k)) ->
  utilization_rates ags clock1 = utilization_rates ags clock2.
Proof.
  intros H. unfold utilization_rates. apply map_ext_in.
  intros [k a] Hin. apply in_combine_seq in Hin. destruct Hin as [_ Hn].
  rewrite Nat.sub_0_r in Hn. cbn. now apply H.
Qed.

Lemma get_metrics_ext st clock1 clock2 :
  utilization_rates (agents st) clock1 =
  utilization_rates (agents st) clock2 ->
  get_metrics st clock1 = get_metrics st clock2.
Proof.
  intros H. unfold get_metrics, avg_utilization. now rewrite H.
Qed.

(** C8 (as amended): two calls of [get_metrics] on the same state agree on
    the average wait time, the fairness score, the completed count, the
    queue length and the algorithm name; they agree on the whole reply,
    utilization included, when the clock reads the same for each agent
    in both calls, and when no agent has any service time yet. *)
Theorem get_metrics_repeatable (st : System)
    (clock1 clock2 : nat -> datetime) :
  average_wait_time (get_metrics st clock1) =
    average_wait_time (get_metrics st clock2) /\
  metrics_fairness_score (get_metrics st clock1) =
    metrics_fairness_score (get_metrics st clock2) /\
  completed_customers (get_metrics st clock1) =
    completed_customers (get_metrics st clock2) /\
  customers_in_queue (get_metrics st clock1) =
    customers_in_queue (get_metrics st clock2) /\
  active_algorithm (get_metrics st clock1) =
    active_algorithm (get_metrics st clock2) /\
  ((forall k, (k < List.length (agents st))%nat -> clock1 k = clock2 k) ->
   get_metrics st clock1 = get_metrics st clock2) /\
  ((forall a, In a (agents st) -> Qnum (total_service_time a) = 0) ->
   get_metrics st clock1 = get_metrics st clock2).
Proof.
  do 5 (split; [reflexivity |]). split.
  - intros Hclock. apply get_metrics_ext, utilization_rates_ext.
    intros k a Hk. rewrite Hclock; [reflexivity |].
    apply nth_error_Some. congruence.
  - intros Hunused. apply get_metrics_ext, utilization_rates_ext.
    intros k a Hk. apply nth_error_In in Hk.
    now rewrite !calculate_utilization_rate_unused by now apply Hunused.
Qed.

Lemma get_metrics_repeatable_witness :
  let busy := sample_system [sample_veteran] [] in
  let fresh := sample_system [sample_loaded "a" 2 1; sample_loaded "b" 2 0]
                             [] in
  (forall k, (k < List.length (agents busy))%nat ->
     (fun _ : nat => 10000000) k = (fun i : nat => 10000000 + Z.of_nat i) k) /\
  get_metrics busy (fun _ => 10000000) =
    get_metrics busy (fun i => 10000000 + Z.of_nat i) /\
  (forall a, In a (agents fresh) -> Qnum (total_service_time a) = 0) /\
  get_metrics fresh (fun _ => 10000000) =
    get_metrics fresh (fun _ => 30000000).
Proof.
  cbv zeta.
  assert (H1 : forall k,
            (k < List.length (agents (sample_system [sample_veteran] [])))%nat
            -> (fun _ : nat => 10000000) k =
               (fun i : nat => 10000000 + Z.of_nat i) k).
  { intros k Hk. cbn in Hk. assert (k = 0%nat) as -> by lia. reflexivity. }
  assert (H2 : forall a,
            In a (agents (sample_system
                            [sample_loaded "a" 2 1; sample_loaded "b" 2 0]
                            [])) ->
            Qnum (total_service_time a) = 0).
  { intros a [<- | [<- | []]]; reflexivity. }
  split; [exact H1 |].
  split;
    [exact (proj1 (proj2 (proj2 (proj2 (proj2 (proj2
              (get_metrics_repeatable (sample_system [sample_veteran] [])
                 (fun _ => 10000000)
                 (fun i => 10000000 + Z.of_nat i))))))) H1) |].
  split; [exact H2 |].
  exact (proj2 (proj2 (proj2 (proj2 (proj2 (proj2
           (get_metrics_repeatable
              (sample_system [sample_loaded "a" 2 1; sample_loaded "b" 2 0]
                             [])
              (fun _ => 10000000) (fun _ => 30000000))))))) H2).
Defined.

(** C8 as first stated fails: with nothing changed between the calls, an
    agent that served for ten seconds shows 50 percent utilization when the
    clock reads second 10 and 25 percent when it reads second 30. *)
Lemma get_metrics_depends_on_clock :
  let st := sample_system [sample_veteran] [] in
  agent_utilization (get_metrics st (fun _ => 10000000)) = 50%Q /\
  agent_utilization (get_metrics st (fun _ => 30000000)) = 25%Q /\
  get_metrics st (fun _ => 10000000) <> get_metrics st (fun _ => 30000000).
Proof.
  cbv zeta.
  assert (H1 : agent_utilization
                 (get_metrics (sample_system [sample_veteran] [])
                              (fun _ => 10000000)) = 50%Q)
    by (cbn [get_metrics agent_utilization]; vm_compute; reflexivity).
  assert (H2 : agent_utilization
                 (get_metrics (sample_system [sample_veteran] [])
                              (fun _ => 30000000)) = 25%Q)
    by (cbn [get_metrics agent_utilization]; vm_compute; reflexivity).
  split; [exact H1 |]. split; [exact H2 |].
  intros E. rewrite E, H2 in H1. discriminate H1.
Qed.

(** ** Scheduling instances *)

Lemma priority_scheduling_spec_witness :
  let st := sample_system
              [sample_loaded "a" 2 1; Agent_init "b" "Blake" 3 0;
               Agent_init "c" "Casey" 3 0]
              [sample_customer "B" Normal 5 1000000;
               sample_customer "A" VIP 10 0] in
  waiting_queue st <> [] /\
  (exists a, In a (agents st) /\ available a = true) /\
  exists i agent customer rest,
    i = 1%nat /\
    agent = Agent_init "b" "Blake" 3 0 /\
    Permutation (waiting_queue st) (customer :: rest) /\
    waiting_queue (fst (priority_scheduling st 2000000)) = rest /\
    nth_error (agents (fst (priority_scheduling st 2000000))) i =
      Some (fst (fst (assign_customer agent customer 2000000))) /\
    (forall x, In x rest -> priority_level x <= priority_level customer).
Proof.
  cbv zeta.
  assert (Hq : waiting_queue
                 (sample_system
                    [sample_loaded "a" 2 1; Agent_init "b" "Blake" 3 0;
                     Agent_init "c" "Casey" 3 0]
                    [sample_customer "B" Normal 5 1000000;
                     sample_customer "A" VIP 10 0]) <> []) by discriminate.
  assert (Ha : exists a,
             In a (agents (sample_system
                             [sample_loaded "a" 2 1;
                              Agent_init "b" "Blake" 3 0;
                              Agent_init "c" "Casey" 3 0]
                             [sample_customer "B" Normal 5 1000000;
                              sample_customer "A" VIP 10 0])) /\
             available a = true).
  { exists (Agent_init "b" "Blake" 3 0).
    split; [right; now left | reflexivity]. }
  split; [exact Hq |]. split; [exact Ha |].
  destruct (priority_scheduling_spec _ 2000000 Hq Ha)
    as (i & agent & customer & rest & Hp & _ & _ & Hnth & _ & Hbest & _
        & Hrest & Hnew & _ & Hle & _).
  assert (Hi : i = 1%nat /\ agent = Agent_init "b" "Blake" 3 0).
  { pose proof (Hbest 1%nat (Agent_init "b" "Blake" 3 0) eq_refl eq_refl)
      as [Hmax Hfirst].
    destruct i as [| [| [| i]]]; cbn in Hnth.
    - injection Hnth as <-. cbn in Hmax. lia.
    - injection Hnth as <-. split; reflexivity.
    - injection Hnth as <-.
      assert (Hlt : (1 < 2)%nat) by lia.
      specialize (Hfirst Hlt). cbn in Hfirst. lia.
    - destruct i; discriminate Hnth. }
  exists i, agent, customer, rest.
  split; [exact (proj1 Hi) |]. split; [exact (proj2 Hi) |].
  split; [exact Hp |]. split; [exact Hrest |]. split; [exact Hnew |].
  intros x Hx. now apply Hle.
Defined.

Lemma shortest_job_next_spec_witness :
  let st := sample_system [Agent_init "a1" "Alex" 2 0]
              [sample_customer "A" VIP 10 0;
               sample_customer "B" Normal 5 1000000] in
  waiting_queue st <> [] /\
  (exists a, In a (agents st) /\ available a = true) /\
  exists customer rest,
    Permutation (waiting_queue st) (customer :: rest) /\
    waiting_queue (fst (shortest_job_next st 2000000)) = rest /\
    (forall x, In x rest -> service_time customer <= service_time x).
Proof.
  cbv zeta.
  assert (Hq : waiting_queue
                 (sample_system [Agent_init "a1" "Alex" 2 0]
                    [sample_customer "A" VIP 10 0;
                     sample_customer "B" Normal 5 1000000]) <> [])
    by discriminate.
  assert (Ha : exists a,
             In a (agents (sample_system [Agent_init "a1" "Alex" 2 0]
                             [sample_customer "A" VIP 10 0;
                              sample_customer "B" Normal 5 1000000])) /\
             available a = true).
  { exists (Agent_init "a1" "Alex" 2 0). split; [now left | reflexivity]. }
  split; [exact Hq |]. split; [exact Ha |].
  destruct (shortest_job_next_spec _ 2000000 Hq Ha)
    as (i & agent & customer & rest & Hp & _ & _ & _ & _ & _ & _ & Hrest
        & _ & _ & Hle & _).
  exists customer, rest. split; [exact Hp |]. split; [exact Hrest |].
  exact Hle.
Defined.

(** The scenario of the specification: one agent of limit 2 and the queue
    [A; B] with A a VIP of 10 seconds arrived at second 0 and B a Normal
    customer of 5 seconds arrived at second 1. *)
Example scenario_priority_takes_A :
  let st := sample_system [Agent_init "a1" "Alex" 2 0]
              [sample_customer "A" VIP 10 0;
               sample_customer "B" Normal 5 1000000] in
  option_map customer_id
    (match snd (priority_scheduling st 2000000) with
     | Return r => r
     | Raise _ => None
     end) = Some "A"%string /\
  map customer_id (waiting_queue (fst (priority_scheduling st 2000000))) =
    ["B"%string].
Proof. split; reflexivity. Qed.

Example scenario_shortest_job_takes_B :
  let st := sample_system [Agent_init "a1" "Alex" 2 0]
              [sample_customer "A" VIP 10 0;
               sample_customer "B" Normal 5 1000000] in
  option_map customer_id
    (match snd (shortest_job_next st 2000000) with
     | Return r => r
     | Raise _ => None
     end) = Some "B"%string /\
  map customer_id (waiting_queue (fst (shortest_job_next st 2000000))) =
    ["A"%string].
Proof. split; reflexivity. Qed.

(** * Further properties of the dispatch engine *)

(** ** One call of the current algorithm *)

Lemma available_agents_head ags i agent others :
  available_agents ags = (i, agent) :: others ->
  nth_error ags i = Some agent /\
  available agent = true /\
  forall j b, (j < i)%nat -> nth_error ags j = Some b -> available b = false.
Proof.
  intros E.
  assert (Hin : In (i, agent) (available_agents ags))
    by (rewrite E; now left).
  apply in_available_agents in Hin. destruct Hin as [Hn Hf].
  split; [exact Hn |]. split; [exact Hf |].
  intros j b Hj Hb. destruct (available b) eqn:Eb; [| reflexivity].
  exfalso.
  assert (Hjb : In (j, b) (available_agents ags))
    by (apply in_available_agents; now split).
  pose proof (available_agents_sorted ags) as Hs. rewrite E in Hs, Hjb.
  inversion Hs as [| ? ? _ Hall]; subst.
  destruct Hjb as [Heq | Hjb].
  - inversion Heq. lia.
  - rewrite Forall_forall in Hall. specialize (Hall _ Hjb).
    unfold position_lt in Hall. cbn in Hall. lia.
Qed.

Lemma available_agents_nil ags :
  available_agents ags = [] <->
  forall a, In a ags -> available a = false.
Proof.
  split.
  - intros E a Hin. destruct (available a) eqn:Ea; [| reflexivity].
    exfalso. now apply (available_agents_nonempty ags a).
  - intros Hall. destruct (available_agents ags) as [| [i a] l] eqn:E;
      [reflexivity |].
    apply available_agents_head in E. destruct E as (Hn & Hf & _).
    apply nth_error_In in Hn. rewrite (Hall a Hn) in Hf. discriminate.
Qed.

Lemma round_robin_cases st now :
  ((waiting_queue st = [] \/ available_agents (agents st) = []) /\
   round_robin_scheduling st now = (st, Return None)) \/
  (exists i agent customer,
     dispatched st now (round_robin_scheduling st now) i agent customer /\
     waiting_queue st =
       customer :: waiting_queue (fst (round_robin_scheduling st now)) /\
     forall j b, (j < i)%nat -> nth_error (agents st) j = Some b ->
                 available b = false).
Proof.
  unfold round_robin_scheduling.
  destruct (waiting_queue st) as [| c0 q0] eqn:Eq; [left; split; auto |].
  destruct (available_agents (agents st)) as [| [i agent] others] eqn:Ea;
    [left; split; auto |].
  right. apply available_agents_head in Ea. destruct Ea as (Hn & Hf & Hfirst).
  exists i, agent, c0. cbn [pop0]. unfold dispatched. rewrite Eq.
  destruct (assign_customer agent c0 now) as [[agent' customer'] ok].
  cbn. repeat split; auto.
Qed.

Lemma sorting_dispatch_cases (key : Customer -> Z * Z)
    (pick : nat * Agent -> list (nat * Agent) -> nat * Agent)
    (st : System) (now : datetime) :
  (forall first others, In (pick first others) (first :: others)) ->
  let out :=
    match waiting_queue st with
    | [] => (st, Return None)
    | _ :: _ =>
        let st1 :=
          {| agents := agents st;
             waiting_queue := list_sort key (waiting_queue st);
             service_history := service_history st;
             current_algorithm := current_algorithm st |} in
        match available_agents (agents st1) with
        | [] => (st1, Return None)
        | first :: others =>
            let '(i, agent) := pick first others in
            match pop0 (waiting_queue st1) with
            | Raise e => (st1, Raise e)
            | Return (customer, rest) =>
                let '(agent', customer', _) :=
                  assign_customer agent customer now in
                ({| agents := list_set (agents st1) i agent';
                    waiting_queue := rest;
                    service_history := service_history st1;
                    current_algorithm := current_algorithm st1 |},
                 Return (Some customer'))
            end
        end
    end in
  ((waiting_queue st = [] \/ available_agents (agents st) = []) /\
   snd out = Return None /\
   agents (fst out) = agents st /\
   Permutation (waiting_queue st) (waiting_queue (fst out)) /\
   service_history (fst out) = service_history st /\
   current_algorithm (fst out) = current_algorithm st) \/
  (waiting_queue st <> [] /\ available_agents (agents st) <> [] /\
   exists i agent customer, dispatched st now out i agent customer).
Proof.
  intros Hpick. cbv zeta.
  destruct (waiting_queue st) as [| c0 q0] eqn:Eq.
  { left. cbn. rewrite Eq. repeat split; auto. }
  cbn [agents waiting_queue service_history current_algorithm].
  destruct (available_agents (agents st)) as [| first others] eqn:Ea.
  { left. cbn. repeat split; auto. exact (list_sort_perm key (c0 :: q0)). }
  right. split; [discriminate |]. split; [discriminate |].
  pose proof (Hpick first others) as Hin.
  destruct (pick first others) as [i agent].
  rewrite <- Ea in Hin. apply in_available_agents in Hin.
  destruct Hin as [Hn Hf].
  destruct (list_sort key (c0 :: q0)) as [| customer rest] eqn:Es;
    [exfalso; now apply (list_sort_nonempty key c0 q0) |].
  exists i, agent, customer. cbn [pop0]. unfold dispatched. rewrite Eq.
  destruct (assign_customer agent customer now) as [[agent' customer'] ok].
  cbn. repeat split; auto.
  rewrite <- Es. apply list_sort_perm.
Qed.

Lemma py_max_from_in {A : Type} (key : A -> Z) (l : list A) : forall best,
  In (py_max_from key best l) (best :: l).
Proof.
  intros best.
  destruct (py_max_from_split key l best) as (l1 & l2 & Heq & _).
  rewrite Heq. apply in_or_app. right. now left.
Qed.

Lemma py_min_from_in {A : Type} (key : A -> Z) (l : list A) : forall best,
  In (py_min_from key best l) (best :: l).
Proof.
  intros best. rewrite py_min_from_as_max. apply py_max_from_in.
Qed.

(** Whatever the active algorithm, a call either finds nothing to do and
    changes at most the order of the queue, or hands one queued customer to
    one available agent. *)
Lemma run_current_algorithm_cases st now :
  ((waiting_queue st = [] \/ available_agents (agents st) = []) /\
   snd (run_current_algorithm st now) = Return None /\
   agents (fst (run_current_algorithm st now)) = agents st /\
   Permutation (waiting_queue st)
               (waiting_queue (fst (run_current_algorithm st now))) /\
   service_history (fst (run_current_algorithm st now)) =
     service_history st /\
   current_algorithm (fst (run_current_algorithm st now)) =
     current_algorithm st) \/
  (waiting_queue st <> [] /\ available_agents (agents st) <> [] /\
   exists i agent customer,
     dispatched st now (run_current_algorithm st now) i agent customer).
Proof.
  unfold run_current_algorithm. destruct (current_algorithm st) eqn:Ealg.
  - destruct (round_robin_cases st now) as [[Hc Hout] | Hd].
    + left. rewrite Hout. cbn. repeat split; auto.
    + right. destruct Hd as (i & agent & customer & Hd & Hq & _).
      split; [rewrite Hq; discriminate |].
      split; [| now exists i, agent, customer].
      destruct Hd as (Hn & Hf & _). intros E.
      rewrite available_agents_nil in E.
      apply nth_error_In in Hn. rewrite (E agent Hn) in Hf. discriminate.
  - rewrite <- Ealg.
    exact (sorting_dispatch_cases priority_key
             (py_max_from (fun ia => spare_capacity (snd ia))) st now
             (fun first others => py_max_from_in _ others first)).
  - rewrite <- Ealg.
    exact (sorting_dispatch_cases shortest_job_key
             (py_min_from (fun ia => current_workload (snd ia))) st now
             (fun first others => py_min_from_in _ others first)).
Qed.

(** X1: with a non-empty queue and an available agent,
    [round_robin_scheduling] leaves the queue in arrival order, pops its
    head and assigns it to the first available agent of the pool; every
    other agent is untouched. *)
Theorem round_robin_takes_head (st : System) (now : datetime)
    (customer : Customer) (rest : list Customer) :
  waiting_queue st = customer :: rest ->
  (exists a, In a (agents st) /\ available a = true) ->
  exists (i : nat) (agent : Agent),
    nth_error (agents st) i = Some agent /\
    available agent = true /\
    (forall j b, (j < i)%nat -> nth_error (agents st) j = Some b ->
       available b = false) /\
    snd (round_robin_scheduling st now) =
      Return (Some (snd (fst (assign_customer agent customer now)))) /\
    waiting_queue (fst (round_robin_scheduling st now)) = rest /\
    nth_error (agents (fst (round_robin_scheduling st now))) i =
      Some (fst (fst (assign_customer agent customer now))) /\
    (forall j, j <> i ->
       nth_error (agents (fst (round_robin_scheduling st now))) j =
       nth_error (agents st) j).
Proof.
  intros Hq (a & Hin & Hav).
  destruct (round_robin_cases st now) as [[[Hc | Hc] _] | Hd].
  - congruence.
  - exfalso. now apply (available_agents_nonempty (agents st) a).
  - destruct Hd as (i & agent & c0 & (Hn & Hf & _ & Hout) & Hq' & Hfirst).
    rewrite Hq in Hq'. injection Hq' as Hc Hrest. subst c0.
    exists i, agent. split; [exact Hn |]. split; [exact Hf |].
    split; [exact Hfirst |]. rewrite Hout. cbn.
    split; [reflexivity |]. split; [now symmetry |].
    split; [apply list_set_same; apply nth_error_Some; congruence |].
    intros j Hj. now apply list_set_other.
Qed.

Lemma round_robin_takes_head_witness :
  let st := sample_system
              [sample_loaded "a" 1 1; Agent_init "b" "Blake" 2 0]
              [sample_customer "B" Normal 5 0;
               sample_customer "A" VIP 10 1000000] in
  waiting_queue st =
    [sample_customer "B" Normal 5 0; sample_customer "A" VIP 10 1000000] /\
  (exists a, In a (agents st) /\ available a = true) /\
  waiting_queue (fst (round_robin_scheduling st 2000000)) =
    [sample_customer "A" VIP 10 1000000].
Proof.
  cbv zeta. split; [reflexivity |].
  assert (Ha : exists a,
             In a (agents (sample_system
                             [sample_loaded "a" 1 1;
                              Agent_init "b" "Blake" 2 0]
                             [sample_customer "B" Normal 5 0;
                              sample_customer "A" VIP 10 1000000])) /\
             available a = true).
  { exists (Agent_init "b" "Blake" 2 0).
    split; [right; now left | reflexivity]. }
  split; [exact Ha |].
  destruct (round_robin_takes_head
              (sample_system
                 [sample_loaded "a" 1 1; Agent_init "b" "Blake" 2 0]
                 [sample_customer "B" Normal 5 0;
                  sample_customer "A" VIP 10 1000000])
              2000000 (sample_customer "B" Normal 5 0)
              [sample_customer "A" VIP 10 1000000] eq_refl Ha)
    as (i & agent & _ & _ & _ & _ & Hrest & _).
  exact Hrest.
Defined.

(** X2: no call of the current algorithm raises: the [pop(0)] of each
    scheduling function is never reached with an empty queue. *)
Theorem dispatch_never_raises (st : System) (now : datetime) (e : exn) :
  snd (run_current_algorithm st now) <> Raise e.
Proof.
  destruct (run_current_algorithm_cases st now)
    as [(_ & Hnone & _) | (_ & _ & i & agent & c & _ & _ & _ & Hout)].
  - rewrite Hnone. discriminate.
  - rewrite Hout. discriminate.
Qed.

(** X3: the current algorithm returns [None] exactly when the queue is
    empty or no agent is available; it then leaves the agents, the history
    and the algorithm alone and keeps every queued customer (the sorting
    algorithms may have reordered the queue). *)
Theorem dispatch_none_iff (st : System) (now : datetime) :
  (snd (run_current_algorithm st now) = Return None <->
   waiting_queue st = [] \/
   (forall a, In a (agents st) -> available a = false)) /\
  (snd (run_current_algorithm st now) = Return None ->
   agents (fst (run_current_algorithm st now)) = agents st /\
   Permutation (waiting_queue st)
               (waiting_queue (fst (run_current_algorithm st now))) /\
   service_history (fst (run_current_algorithm st now)) =
     service_history st /\
   current_algorithm (fst (run_current_algorithm st now)) =
     current_algorithm st).
Proof.
  destruct (run_current_algorithm_cases st now)
    as [(Hc & Hnone & Hrest) | (Hq & Ha & i & agent & c & _ & _ & _ & Hout)].
  - split; [| intros _; exact Hrest].
    split; [intros _ | intros _; exact Hnone].
    destruct Hc as [Hc | Hc]; [now left | right].
    now apply available_agents_nil.
  - split.
    + split.
      * rewrite Hout. discriminate.
      * intros [Hc | Hc]; [congruence |].
        apply available_agents_nil in Hc. congruence.
    + rewrite Hout. discriminate.
Qed.

Lemma dispatch_none_iff_witness :
  let st := with_algorithm
              (sample_system [sample_loaded "a" 1 1]
                 [sample_customer "B" Normal 5 0;
                  sample_customer "A" VIP 10 1000000])
              PriorityScheduling in
  snd (run_current_algorithm st 2000000) = Return None /\
  agents (fst (run_current_algorithm st 2000000)) = agents st /\
  Permutation (waiting_queue st)
              (waiting_queue (fst (run_current_algorithm st 2000000))).
Proof.
  cbv zeta.
  pose proof (dispatch_none_iff
                (with_algorithm
                   (sample_system [sample_loaded "a" 1 1]
                      [sample_customer "B" Normal 5 0;
                       sample_customer "A" VIP 10 1000000])
                   PriorityScheduling) 2000000) as [Hiff Hkeep].
  assert (Hnone : snd (run_current_algorithm
                         (with_algorithm
                            (sample_system [sample_loaded "a" 1 1]
                               [sample_customer "B" Normal 5 0;
                                sample_customer "A" VIP 10 1000000])
                            PriorityScheduling) 2000000) = Return None).
  { apply Hiff. right. intros a [<- | []]. reflexivity. }
  split; [exact Hnone |].
  destruct (Hkeep Hnone) as (Hag & Hperm & _). split; assumption.
Defined.

Lemma list_set_Forall {A : Type} (P : A -> Prop) (l : list A) : forall i x,
  Forall P l -> P x -> Forall P (list_set l i x).
Proof.
  induction l as [| y l IH]; intros [| i] x Hl Hx; cbn;
    inversion Hl; subst; constructor; auto.
Qed.

Lemma list_set_map_same {A B : Type} (f : A -> B) (l : list A) :
  forall i a x,
  nth_error l i = Some a -> f x = f a ->
  map f (list_set l i x) = map f l.
Proof.
  induction l as [| y l IH]; intros [| i] a x Hn Hf; cbn in *;
    try discriminate.
  - injection Hn as ->. now rewrite Hf.
  - f_equal. now apply IH with a.
Qed.

Lemma assign_customer_keeps_identity a c now :
  let a' := fst (fst (assign_customer a c now)) in
  let c' := snd (fst (assign_customer a c now)) in
  agent_id a' = agent_id a /\ name a' = name a /\
  workload_limit a' = workload_limit a /\
  customer_id c' = customer_id c /\ priority c' = priority c /\
  service_time c' = service_time c /\ arrival_time c' = arrival_time c.
Proof.
  unfold assign_customer.
  destruct (current_workload a <? workload_limit a); cbn; repeat split.
Qed.

(** X4: a call that returns a customer took exactly that customer out of
    the queue: the old queue is the returned customer (as it was before the
    assignment wrote to it) plus the new queue; the pool keeps its agents,
    their ids and their limits, and the history and the algorithm are
    untouched. *)
Theorem dispatch_conserves (st : System) (now : datetime)
    (returned : Customer) :
  snd (run_current_algorithm st now) = Return (Some returned) ->
  exists queued,
    Permutation (waiting_queue st)
      (queued :: waiting_queue (fst (run_current_algorithm st now))) /\
    customer_id returned = customer_id queued /\
    priority returned = priority queued /\
    service_time returned = service_time queued /\
    arrival_time returned = arrival_time queued /\
    map agent_id (agents (fst (run_current_algorithm st now))) =
      map agent_id (agents st) /\
    map workload_limit (agents (fst (run_current_algorithm st now))) =
      map workload_limit (agents st) /\
    service_history (fst (run_current_algorithm st now)) =
      service_history st /\
    current_algorithm (fst (run_current_algorithm st now)) =
      current_algorithm st.
Proof.
  intros Hret.
  destruct (run_current_algorithm_cases st now)
    as [(_ & Hnone & _) | (_ & _ & i & agent & c & Hn & Hf & Hperm & Hout)].
  - rewrite Hnone in Hret. discriminate.
  - exists c. split; [exact Hperm |].
    destruct (assign_customer_keeps_identity agent c now)
      as (Hid & _ & Hlim & Hc1 & Hc2 & Hc3 & Hc4).
    rewrite Hout in Hret. cbn in Hret. injection Hret as <-.
    split; [exact Hc1 |]. split; [exact Hc2 |]. split; [exact Hc3 |].
    split; [exact Hc4 |].
    rewrite Hout. cbn.
    split; [now apply list_set_map_same with agent |].
    split; [now apply list_set_map_same with agent |].
    split; reflexivity.
Qed.

Lemma dispatch_conserves_witness :
  let st := with_algorithm
              (sample_system [Agent_init "a1" "Alex" 2 0]
                 [sample_customer "B" Normal 5 0;
                  sample_customer "A" VIP 10 1000000])
              PriorityScheduling in
  snd (run_current_algorithm st 2000000) =
    Return (Some (sample_served "A" VIP 10 1000000 2000000)) /\
  exists queued,
    Permutation (waiting_queue st)
      (queued :: waiting_queue (fst (run_current_algorithm st 2000000))) /\
    customer_id queued = "A"%string.
Proof.
  cbv zeta. split; [reflexivity |].
  destruct (dispatch_conserves
              (with_algorithm
                 (sample_system [Agent_init "a1" "Alex" 2 0]
                    [sample_customer "B" Normal 5 0;
                     sample_customer "A" VIP 10 1000000])
                 PriorityScheduling)
              2000000 (sample_served "A" VIP 10 1000000 2000000) eq_refl)
    as (queued & Hperm & Hid & _).
  exists queued. split; [exact Hperm | now symmetry].
Defined.

Lemma invariant_available_below_limit a :
  agent_invariant a -> available a = true ->
  current_workload a < workload_limit a.
Proof.
  intros [_ Hflag] Hav. rewrite Hflag in Hav. now apply Z.ltb_lt.
Qed.

Lemma assign_customer_when_available a c now :
  agent_invariant a -> available a = true ->
  let a' := fst (fst (assign_customer a c now)) in
  let c' := snd (fst (assign_customer a c now)) in
  current_workload a' = current_workload a + 1 /\
  customers_served a' = customers_served a ++ [customer_id c] /\
  total_service_time a' = total_service_time a /\
  status c' = "Being Served"%string /\
  assigned_agent c' = Some (agent_id a) /\
  service_start_time c' = Some now.
Proof.
  intros Hinv Hav.
  pose proof (invariant_available_below_limit a Hinv Hav) as Hlt.
  apply Z.ltb_lt in Hlt. unfold assign_customer. rewrite Hlt. cbn.
  repeat split.
Qed.

(** X5: on a pool that satisfies the agent invariant, a call of the current
    algorithm keeps the invariant, and a customer it returns has really
    been assigned: it is marked as being served since [now] by an agent of
    the pool whose workload went up by one and whose served list now ends
    with this customer, while no other agent changed. *)
Theorem dispatch_assigns_under_invariant (st : System) (now : datetime) :
  Forall agent_invariant (agents st) ->
  Forall agent_invariant (agents (fst (run_current_algorithm st now))) /\
  forall returned,
    snd (run_current_algorithm st now) = Return (Some returned) ->
    status returned = "Being Served"%string /\
    service_start_time returned = Some now /\
    exists i agent agent',
      nth_error (agents st) i = Some agent /\
      nth_error (agents (fst (run_current_algorithm st now))) i =
        Some agent' /\
      assigned_agent returned = Some (agent_id agent) /\
      agent_id agent' = agent_id agent /\
      current_workload agent' = current_workload agent + 1 /\
      customers_served agent' =
        customers_served agent ++ [customer_id returned] /\
      forall j, j <> i ->
        nth_error (agents (fst (run_current_algorithm st now))) j =
        nth_error (agents st) j.
Proof.
  intros Hpool.
  destruct (run_current_algorithm_cases st now)
    as [(_ & Hnone & Hag & _) | (_ & _ & i & agent & c & Hn & Hf & _ & Hout)].
  - split; [now rewrite Hag |].
    intros returned Hret. rewrite Hnone in Hret. discriminate.
  - assert (Hinv : agent_invariant agent).
    { rewrite Forall_forall in Hpool. apply Hpool.
      now apply nth_error_In with i. }
    destruct (assign_customer_when_available agent c now Hinv Hf)
      as (Hw & Hserved & _ & Hst & Has & Hstart).
    destruct (assign_customer_keeps_identity agent c now)
      as (Hid & _ & _ & Hcid & _).
    split.
    + rewrite Hout. cbn. apply list_set_Forall; [exact Hpool |].
      now apply agent_invariant_assign.
    + intros returned Hret. rewrite Hout in Hret. cbn in Hret.
      injection Hret as <-.
      split; [exact Hst |]. split; [exact Hstart |].
      exists i, agent, (fst (fst (assign_customer agent c now))).
      split; [exact Hn |].
      split.
      { rewrite Hout. cbn. apply list_set_same.
        apply nth_error_Some. congruence. }
      split; [exact Has |]. split; [exact Hid |]. split; [exact Hw |].
      split; [now rewrite Hcid |].
      intros j Hj. rewrite Hout. cbn. now apply list_set_other.
Qed.

Lemma dispatch_assigns_under_invariant_witness :
  let st := with_algorithm
              (sample_system [sample_loaded "a" 1 1;
                              Agent_init "b" "Blake" 2 0]
                 [sample_customer "B" Normal 5 0;
                  sample_customer "A" VIP 10 1000000])
              ShortestJobNext in
  Forall agent_invariant (agents st) /\
  Forall agent_invariant (agents (fst (run_current_algorithm st 2000000))) /\
  exists returned,
    snd (run_current_algorithm st 2000000) = Return (Some returned) /\
    status returned = "Being Served"%string.
Proof.
  cbv zeta.
  assert (Hpool : Forall agent_invariant
                    (agents (with_algorithm
                               (sample_system
                                  [sample_loaded "a" 1 1;
                                   Agent_init "b" "Blake" 2 0]
                                  [sample_customer "B" Normal 5 0;
                                   sample_customer "A" VIP 10 1000000])
                               ShortestJobNext))).
  { repeat constructor; cbn; lia. }
  split; [exact Hpool |].
  destruct (dispatch_assigns_under_invariant _ 2000000 Hpool)
    as [Hkeep Hret].
  split; [exact Hkeep |].
  eexists. split; [reflexivity |].
  now apply Hret.
Defined.

(** ** One pass of the service processor *)

Lemma list_set_twice {A : Type} (l : list A) : forall i x y,
  list_set (list_set l i x) i y = list_set l i y.
Proof.
  induction l as [| z l IH]; intros [| i] x y; cbn; try reflexivity.
  now rewrite IH.
Qed.

Lemma find_agent_from_none ags : forall k,
  find_agent_from k ags None = None.
Proof. induction ags as [| a ags IH]; intros k; cbn; auto. Qed.

(** With distinct agent ids the lookup by id finds the agent itself. *)
Lemma find_agent_from_unique ags : forall k i a,
  NoDup (map agent_id ags) ->
  nth_error ags i = Some a ->
  find_agent_from k ags (Some (agent_id a)) = Some ((k + i)%nat, a).
Proof.
  induction ags as [| b ags IH]; intros k [| i] a Hnd Hn; cbn in *;
    try discriminate.
  - injection Hn as ->. rewrite String.eqb_refl. now rewrite Nat.add_0_r.
  - inversion Hnd as [| ? ? Hnotin Hnd']; subst.
    destruct (String.eqb_spec (agent_id b) (agent_id a)) as [E | _].
    + exfalso. apply Hnotin. rewrite E. apply in_map.
      now apply nth_error_In with i.
    + rewrite (IH (S k) i a Hnd' Hn). f_equal. f_equal. lia.
Qed.

Lemma complete_after_assign a c now now1 now2 :
  agent_invariant a -> available a = true ->
  let a' := fst (fst (assign_customer a c now)) in
  let c' := snd (fst (assign_customer a c now)) in
  let a'' := fst (fst (complete_service a' c' now1 now2)) in
  let c'' := snd (fst (complete_service a' c' now1 now2)) in
  snd (complete_service a' c' now1 now2) =
    Return (total_seconds (now1 - now)) /\
  current_workload a'' = current_workload a /\
  available a'' = available a /\
  total_service_time a'' =
    (total_service_time a + total_seconds (now1 - now)%Z)%Q /\
  customer_id c'' = customer_id c /\
  status c'' = "Completed"%string /\
  assigned_agent c'' = Some (agent_id a) /\
  wait_time c'' = Some (total_seconds (now - arrival_time c)).
Proof.
  intros Hinv Hav.
  pose proof (invariant_available_below_limit a Hinv Hav) as Hlt.
  pose proof Hlt as Hb. apply Z.ltb_lt in Hb.
  unfold assign_customer. rewrite Hb. cbn.
  replace (current_workload a + 1 - 1) with (current_workload a) by lia.
  rewrite Hb, Hav. repeat split.
Qed.

(** X6: on a pool with distinct agent ids that satisfies the agent
    invariant, a pass of [service_processor] that finds a queued customer
    and an available agent ends normally, takes one customer out of the
    queue, appends exactly one entry for it to the history, marked completed
    by an agent of the pool and with its wait time (assignment time minus
    arrival time) filled in, and leaves every agent's workload and
    availability flag as they were before the pass. *)
Theorem service_processor_pass_serves_one (st : System)
    (now now1 now2 : datetime) :
  Forall agent_invariant (agents st) ->
  NoDup (map agent_id (agents st)) ->
  waiting_queue st <> [] ->
  (exists a, In a (agents st) /\ available a = true) ->
  snd (service_processor_pass st now now1 now2) = Return tt /\
  map current_workload (agents (fst (service_processor_pass st now now1 now2)))
    = map current_workload (agents st) /\
  map available (agents (fst (service_processor_pass st now now1 now2)))
    = map available (agents st) /\
  exists queued entry agent,
    Permutation (waiting_queue st)
      (queued ::
       waiting_queue (fst (service_processor_pass st now now1 now2))) /\
    service_history (fst (service_processor_pass st now now1 now2)) =
      service_history st ++ [entry] /\
    In agent (agents st) /\
    cv_customer_id entry = customer_id queued /\
    cv_status entry = "Completed"%string /\
    cv_assigned_agent entry = Some (agent_id agent) /\
    cv_wait_time entry =
      Some (total_seconds (now - arrival_time queued)).
Proof.
  intros Hpool Hnd Hq (a0 & Hin0 & Hav0).
  destruct (run_current_algorithm_cases st now)
    as [([Hc | Hc] & _) | (_ & _ & i & agent & c & Hn & Hf & Hperm & Hout)].
  - congruence.
  - exfalso. now apply (available_agents_nonempty (agents st) a0).
  - assert (Hinv : agent_invariant agent).
    { rewrite Forall_forall in Hpool. apply Hpool.
      now apply nth_error_In with i. }
    destruct (assign_customer_when_available agent c now Hinv Hf)
      as (_ & _ & _ & _ & Has & _).
    destruct (assign_customer_keeps_identity agent c now)
      as (Hid & _ & _ & _).
    destruct (complete_after_assign agent c now now1 now2 Hinv Hf)
      as (Hret & Hw & Hflag & _ & Hcid & Hst & Hag & Hwait).
    cbv zeta in Hid, Has, Hret, Hw, Hflag, Hcid, Hst, Hag, Hwait.
    unfold service_processor_pass.
    set (rest := waiting_queue (fst (run_current_algorithm st now))) in *.
    rewrite Hout. unfold service_processor_complete.
    cbn [agents waiting_queue service_history current_algorithm].
    rewrite Has.
    assert (Hfind :
      find_agent_from 0
        (list_set (agents st) i
                  (fst (fst (assign_customer agent c now))))
        (Some (agent_id agent)) =
      Some (i, fst (fst (assign_customer agent c now)))).
    { rewrite <- Hid at 1.
      apply (find_agent_from_unique _ 0 i).
      - now rewrite (list_set_map_same agent_id _ i agent).
      - apply list_set_same. apply nth_error_Some. congruence. }
    rewrite Hfind.
    destruct (complete_service (fst (fst (assign_customer agent c now)))
                (snd (fst (assign_customer agent c now))) now1 now2)
      as [[agent'' customer''] r].
    cbn [fst snd] in Hret, Hw, Hflag, Hcid, Hst, Hag, Hwait.
    rewrite Hret. cbn [fst snd agents waiting_queue service_history].
    rewrite list_set_twice.
    split; [reflexivity |].
    split; [now apply list_set_map_same with agent |].
    split; [now apply list_set_map_same with agent |].
    exists c, (Customer_to_dict customer''), agent.
    split; [exact Hperm |]. split; [reflexivity |].
    split; [now apply nth_error_In with i |].
    cbn. repeat split; assumption.
Qed.

Lemma service_processor_pass_serves_one_witness :
  let st := with_algorithm
              (sample_system [sample_loaded "a" 1 1;
                              Agent_init "b" "Blake" 2 0]
                 [sample_customer "B" Normal 5 0;
                  sample_customer "A" VIP 10 1000000])
              PriorityScheduling in
  Forall agent_invariant (agents st) /\
  NoDup (map agent_id (agents st)) /\
  waiting_queue st <> [] /\
  (exists a, In a (agents st) /\ available a = true) /\
  snd (service_processor_pass st 2000000 12000000 12000001) = Return tt /\
  map current_workload
      (agents (fst (service_processor_pass st 2000000 12000000 12000001))) =
    [1; 0].
Proof.
  cbv zeta.
  assert (Hpool : Forall agent_invariant
                    (agents (with_algorithm
                               (sample_system
                                  [sample_loaded "a" 1 1;
                                   Agent_init "b" "Blake" 2 0]
                                  [sample_customer "B" Normal 5 0;
                                   sample_customer "A" VIP 10 1000000])
                               PriorityScheduling))).
  { repeat constructor; cbn; lia. }
  assert (Hnd : NoDup (map agent_id
                    (agents (with_algorithm
                               (sample_system
                                  [sample_loaded "a" 1 1;
                                   Agent_init "b" "Blake" 2 0]
                                  [sample_customer "B" Normal 5 0;
                                   sample_customer "A" VIP 10 1000000])
                               PriorityScheduling)))).
  { cbn. repeat constructor; cbn; intuition discriminate. }
  assert (Hq : waiting_queue
                 (with_algorithm
                    (sample_system
                       [sample_loaded "a" 1 1; Agent_init "b" "Blake" 2 0]
                       [sample_customer "B" Normal 5 0;
                        sample_customer "A" VIP 10 1000000])
                    PriorityScheduling) <> []) by discriminate.
  assert (Ha : exists a,
             In a (agents (with_algorithm
                             (sample_system
                                [sample_loaded "a" 1 1;
                                 Agent_init "b" "Blake" 2 0]
                                [sample_customer "B" Normal 5 0;
                                 sample_customer "A" VIP 10 1000000])
                             PriorityScheduling)) /\
             available a = true).
  { exists (Agent_init "b" "Blake" 2 0).
    split; [right; now left | reflexivity]. }
  split; [exact Hpool |]. split; [exact Hnd |]. split; [exact Hq |].
  split; [exact Ha |].
  destruct (service_processor_pass_serves_one _ 2000000 12000000 12000001
              Hpool Hnd Hq Ha) as (Hret & Hloads & _).
  split; [exact Hret |]. rewrite Hloads. reflexivity.
Defined.

From Stdlib Require Lqa.

(** ** Utilization and idle accounting *)

Lemma Qlt_bool_iff a b : Qlt_bool a b = true <-> (a < b)%Q.
Proof.
  unfold Qlt_bool. rewrite negb_true_iff.
  destruct (Qle_bool b a) eqn:E.
  - apply Qle_bool_iff in E. split; [discriminate |].
    intros H. exfalso. now apply (Qlt_not_le a b).
  - split; [intros _ | reflexivity].
    apply Qnot_le_lt. intros H. apply Qle_bool_iff in H. congruence.
Qed.

Lemma round_half_even_bounds q n :
  (0 <= q)%Q -> (q <= inject_Z n)%Q -> 0 <= round_half_even q <= n.
Proof.
  intros H0 Hn.
  assert (Hf0 : 0 <= Qfloor q) by (apply (Qfloor_resp_le 0 q); exact H0).
  assert (Hfn : Qfloor q <= n).
  { rewrite <- (Qfloor_Z n). now apply Qfloor_resp_le. }
  assert (Hstep : (inject_Z (Qfloor q) < q)%Q -> Qfloor q + 1 <= n).
  { intros Hlt. assert (H : (inject_Z (Qfloor q) < inject_Z n)%Q) by Lqa.lra.
    rewrite <- Zlt_Qlt in H. lia. }
  unfold round_half_even.
  destruct (Qcompare (q - inject_Z (Qfloor q)) (1 # 2)) eqn:E.
  - apply Qeq_alt in E.
    destruct (Z.even (Qfloor q)); [lia |].
    split; [lia | apply Hstep; Lqa.lra].
  - lia.
  - apply Qgt_alt in E. split; [lia | apply Hstep; Lqa.lra].
Qed.

Lemma total_seconds_nonneg d : 0 <= d -> (0 <= total_seconds d)%Q.
Proof. intros H. unfold total_seconds, Qle. cbn. lia. Qed.

Lemma py_round2_bounds q :
  (0 <= q)%Q -> (q <= 100)%Q -> (0 <= py_round2 q)%Q /\ (py_round2 q <= 100)%Q.
Proof.
  intros H0 H1. unfold py_round2.
  destruct (round_half_even_bounds (q * 100) 10000) as [Hlo Hhi].
  - Lqa.lra.
  - change (inject_Z 10000) with 10000%Q. Lqa.lra.
  - split; rewrite Qred_correct; unfold Qle; cbn; lia.
Qed.

(** X7: for an agent with non-negative service and idle totals whose last
    status change is not in the future, [calculate_utilization_rate] lies
    between 0 and 100. *)
Theorem utilization_rate_bounds (a : Agent) (now : datetime) :
  (0 <= total_service_time a)%Q ->
  (0 <= idle_time a)%Q ->
  last_status_change a <= now ->
  (0 <= calculate_utilization_rate a now)%Q /\
  (calculate_utilization_rate a now <= 100)%Q.
Proof.
  intros Hs Hi Hnow. unfold calculate_utilization_rate.
  pose proof (total_seconds_nonneg (now - last_status_change a)) as Hd.
  set (total_time := (total_seconds (now - last_status_change a)%Z
                      + total_service_time a + idle_time a)%Q).
  destruct (Qlt_bool 0 total_time) eqn:E.
  - apply Qlt_bool_iff in E. apply py_round2_bounds.
    + apply Qmult_le_0_compat; [| Lqa.lra].
      apply Qmult_le_0_compat; [exact Hs |].
      apply Qinv_le_0_compat. Lqa.lra.
    + assert (H : (total_service_time a / total_time <= 1)%Q).
      { apply Qle_shift_div_r; [exact E |].
        unfold total_time. assert (0 <= now - last_status_change a) by lia.
        specialize (Hd H). Lqa.lra. }
      Lqa.lra.
  - split; [apply Qle_refl | unfold Qle; cbn; lia].
Qed.

Lemma map_indexed_proj {A B C : Type} (f : nat * A -> B) (g : B -> C)
    (h : A -> C) (l : list A) : forall s,
  (forall i a, g (f (i, a)) = h a) ->
  map g (map f (combine (seq s (List.length l)) l)) = map h l.
Proof.
  induction l as [| x l IH]; intros s H; cbn; [reflexivity |].
  now rewrite H, IH.
Qed.

Lemma nth_error_map_indexed {A B : Type} (f : nat * A -> B) (l : list A) :
  forall s k,
  nth_error (map f (combine (seq s (List.length l)) l)) k =
  option_map (fun a => f ((s + k)%nat, a)) (nth_error l k).
Proof.
  induction l as [| x l IH]; intros s [| k]; cbn; try reflexivity.
  - now rewrite Nat.add_0_r.
  - rewrite IH. now replace (S s + k)%nat with (s + S k)%nat by lia.
Qed.

Lemma fairness_score_loads ags ags' :
  map current_workload ags' = map current_workload ags ->
  fairness_score ags' = fairness_score ags.
Proof. intros H. unfold fairness_score. now rewrite H. Qed.

Lemma agent_invariant_same_load a a' :
  current_workload a' = current_workload a ->
  workload_limit a' = workload_limit a ->
  available a' = available a ->
  agent_invariant a -> agent_invariant a'.
Proof.
  unfold agent_invariant. intros -> -> ->. tauto.
Qed.

(** X9: a pass of [status_updater] changes no agent's workload, flag, limit
    or id, nor the queue, the history or the algorithm, so the fairness score
    and the agent invariant are unaffected; it stamps every agent with its
    clock reading, keeps its service total, and does not decrease its idle
    time when the clock has not gone backwards. *)
Theorem status_updater_tick_spec (st : System) (clock : nat -> datetime) :
  map current_workload (agents (status_updater_tick st clock)) =
    map current_workload (agents st) /\
  map available (agents (status_updater_tick st clock)) =
    map available (agents st) /\
  map workload_limit (agents (status_updater_tick st clock)) =
    map workload_limit (agents st) /\
  map agent_id (agents (status_updater_tick st clock)) =
    map agent_id (agents st) /\
  waiting_queue (status_updater_tick st clock) = waiting_queue st /\
  service_history (status_updater_tick st clock) = service_history st /\
  current_algorithm (status_updater_tick st clock) = current_algorithm st /\
  fairness_score (agents (status_updater_tick st clock)) =
    fairness_score (agents st) /\
  (Forall agent_invariant (agents st) ->
   Forall agent_invariant (agents (status_updater_tick st clock))) /\
  (forall k a, nth_error (agents st) k = Some a ->
     exists a',
       nth_error (agents (status_updater_tick st clock)) k = Some a' /\
       last_status_change a' = clock k /\
       total_service_time a' = total_service_time a /\
       (last_status_change a <= clock k ->
        (idle_time a <= idle_time a')%Q)).
Proof.
  assert (Hloads : map current_workload (agents (status_updater_tick st clock))
                   = map current_workload (agents st))
    by (apply map_indexed_proj; reflexivity).
  assert (Hnth : forall k,
            nth_error (agents (status_updater_tick st clock)) k =
            option_map (fun a => update_status a (clock k))
                       (nth_error (agents st) k)).
  { intros k. unfold status_updater_tick. cbn [agents].
    now rewrite nth_error_map_indexed. }
  split; [exact Hloads |].
  split; [apply map_indexed_proj; reflexivity |].
  split; [apply map_indexed_proj; reflexivity |].
  split; [apply map_indexed_proj; reflexivity |].
  do 3 (split; [reflexivity |]).
  split; [now apply fairness_score_loads |].
  split.
  - intros Hpool. apply Forall_forall. intros a' Hin.
    apply In_nth_error in Hin. destruct Hin as [k Hk].
    rewrite Hnth in Hk. destruct (nth_error (agents st) k) as [a |] eqn:Ea;
      [| discriminate].
    cbn in Hk. injection Hk as <-. apply agent_invariant_update.
    rewrite Forall_forall in Hpool. apply Hpool.
    now apply nth_error_In with k.
  - intros k a Hk. exists (update_status a (clock k)).
    split; [now rewrite Hnth, Hk |].
    split; [reflexivity |]. split; [reflexivity |].
    intros Hclock. unfold update_status. cbn [idle_time].
    destruct (available a); cbn; [| apply Qle_refl].
    pose proof (total_seconds_nonneg (clock k - last_status_change a)) as Hd.
    assert (H : 0 <= clock k - last_status_change a) by lia.
    specialize (Hd H). Lqa.lra.
Qed.

(** X10: under round robin a customer arriving behind a non-empty queue
    changes neither which customer is dispatched next nor the agent that
    gets it: dispatching after the arrival gives the state of dispatching
    first and appending the arrival afterwards. *)
Theorem round_robin_ignores_new_arrival (customers : list string)
    (st : System) (cid : string) (p : Priority) (service : Z)
    (arrived now : datetime) :
  waiting_queue st <> [] ->
  round_robin_scheduling
    (snd (customer_generator_step customers st cid p service arrived)) now =
  (snd (customer_generator_step customers
          (fst (round_robin_scheduling st now)) cid p service arrived),
   snd (round_robin_scheduling st now)).
Proof.
  intros Hq. unfold round_robin_scheduling, customer_generator_step.
  cbn [snd agents waiting_queue service_history current_algorithm].
  destruct (waiting_queue st) as [| c q] eqn:Eq; [congruence |].
  cbn [app].
  destruct (available_agents (agents st)) as [| [i agent] others].
  - cbn. now rewrite Eq.
  - cbn [pop0].
    destruct (assign_customer agent c now) as [[agent' c'] ok].
    reflexivity.
Qed.

(** ** The running system *)

Lemma status_updater_tick_nth st clock k :
  nth_error (agents (status_updater_tick st clock)) k =
  option_map (fun a => update_status a (clock k)) (nth_error (agents st) k).
Proof.
  unfold status_updater_tick. cbn [agents].
  now rewrite nth_error_map_indexed.
Qed.

Lemma set_algorithm_keeps_data algorithm st :
  agents (fst (set_algorithm algorithm st)) = agents st /\
  waiting_queue (fst (set_algorithm algorithm st)) = waiting_queue st /\
  service_history (fst (set_algorithm algorithm st)) = service_history st.
Proof.
  unfold set_algorithm.
  destruct (String.eqb algorithm "round_robin"); [now cbn |].
  destruct (String.eqb algorithm "priority"); [now cbn |].
  destruct (String.eqb algorithm "shortest_job"); now cbn.
Qed.

Lemma Forall_nth_error {A : Type} (P : A -> Prop) (l : list A) :
  Forall P l <-> forall j b, nth_error l j = Some b -> P b.
Proof.
  rewrite Forall_forall. split.
  - intros H j b Hj. apply H. now apply nth_error_In with j.
  - intros H b Hin. apply In_nth_error in Hin. destruct Hin as [j Hj].
    now apply H with j.
Qed.

Lemma complete_service_keeps_identity a c now1 now2 :
  agent_id (fst (fst (complete_service a c now1 now2))) = agent_id a /\
  workload_limit (fst (fst (complete_service a c now1 now2))) =
    workload_limit a /\
  current_workload (fst (fst (complete_service a c now1 now2))) =
    current_workload a - 1.
Proof.
  unfold complete_service. destruct (service_start_time c); cbn; auto.
Qed.

Lemma running_invariant_arrival r cid p service now :
  running_invariant r ->
  running_invariant (step r (Arrival cid p service now)).
Proof.
  intros (Hc & Hpool & Hnd & Hq & Hh & Hp).
  unfold running_invariant, step, customer_generator_step. cbn.
  repeat split; try assumption.
  apply Forall_app. split; [exact Hq |]. now constructor.
Qed.

Lemma running_invariant_set_algorithm r algorithm :
  running_invariant r ->
  running_invariant (step r (SetAlgorithm algorithm)).
Proof.
  intros (Hc & Hpool & Hnd & Hq & Hh & Hp).
  destruct (set_algorithm_keeps_data algorithm (globals r))
    as (Ha & Hw & Hs).
  unfold running_invariant, step. cbn. rewrite Ha, Hw, Hs.
  repeat split; assumption.
Qed.

Lemma running_invariant_tick r clock :
  running_invariant r -> running_invariant (step r (Tick clock)).
Proof.
  intros (Hc & Hpool & Hnd & Hq & Hh & Hp).
  unfold running_invariant, step.
  cbn [globals customers_created pending crashed].
  split; [exact Hc |].
  split.
  { apply Forall_nth_error. intros j b Hj.
    rewrite status_updater_tick_nth in Hj.
    destruct (nth_error (agents (globals r)) j) as [a |] eqn:Ea;
      [| discriminate].
    cbn in Hj. injection Hj as <-. apply agent_invariant_update.
    rewrite Forall_nth_error in Hpool. now apply Hpool with j. }
  split.
  { unfold status_updater_tick. cbn [agents].
    rewrite (map_indexed_proj _ agent_id agent_id); [exact Hnd |].
    reflexivity. }
  split; [exact Hq |]. split; [exact Hh |].
  destruct (pending r) as [c |].
  - destruct Hp as (Hst & Hstart & i & agent & Hn & Has & Hload & Hothers).
    split; [exact Hst |]. split; [exact Hstart |].
    exists i, (update_status agent (clock i)).
    split; [now rewrite status_updater_tick_nth, Hn |].
    split; [exact Has |]. split; [exact Hload |].
    intros j b Hj Hb. rewrite status_updater_tick_nth in Hb.
    destruct (nth_error (agents (globals r)) j) as [a |] eqn:Ea;
      [| discriminate].
    cbn in Hb. injection Hb as <-. cbn. now apply (Hothers j a).
  - apply Forall_nth_error. intros j b Hj.
    rewrite status_updater_tick_nth in Hj.
    destruct (nth_error (agents (globals r)) j) as [a |] eqn:Ea;
      [| discriminate].
    cbn in Hj. injection Hj as <-. cbn.
    rewrite Forall_nth_error in Hp. now apply Hp with j.
Qed.

Lemma running_invariant_dispatch r now :
  running_invariant r -> running_invariant (step r (Dispatch now)).
Proof.
  intros Hinv. pose proof Hinv as (Hc & Hpool & Hnd & Hq & Hh & Hp).
  unfold step, processor_dead, processor_asleep. rewrite Hc.
  destruct (pending r) as [c0 |] eqn:Ep; [exact Hinv |].
  cbn [orb].
  destruct (run_current_algorithm_cases (globals r) now)
    as [(_ & Hnone & Hag & Hperm & Hhist & _)
       | (_ & _ & i & agent & c & Hn & Hf & Hperm & Hout)].
  - destruct (run_current_algorithm (globals r) now) as [st res].
    cbn [fst snd] in *. subst res.
    unfold running_invariant.
    cbn [globals customers_created pending crashed].
    rewrite Hag, Hhist.
    repeat split; try assumption.
    now apply (Permutation_Forall Hperm).
  - set (rest := waiting_queue (fst (run_current_algorithm (globals r) now)))
      in *.
    rewrite Hout.
    assert (Hai : agent_invariant agent).
    { rewrite Forall_nth_error in Hpool. now apply Hpool with i. }
    destruct (assign_customer_when_available agent c now Hai Hf)
      as (Hw & _ & _ & Hst & Has & Hstart).
    destruct (assign_customer_keeps_identity agent c now)
      as (Hid & _ & _ & _).
    assert (Hzero : current_workload agent = 0).
    { rewrite Forall_nth_error in Hp. now apply Hp with i. }
    unfold running_invariant.
    cbn [globals customers_created pending crashed agents waiting_queue
         service_history].
    split; [reflexivity |].
    split; [apply list_set_Forall;
            [exact Hpool | now apply agent_invariant_assign] |].
    split; [now rewrite (list_set_map_same agent_id _ i agent) |].
    split.
    { pose proof (Permutation_Forall Hperm Hq) as Hall.
      now inversion Hall. }
    split; [exact Hh |].
    split; [exact Hst |]. split; [rewrite Hstart; discriminate |].
    exists i, (fst (fst (assign_customer agent c now))).
    split; [apply list_set_same; apply nth_error_Some; congruence |].
    split; [now rewrite Hid |].
    split; [rewrite Hw, Hzero; reflexivity |].
    intros j b Hj Hb. rewrite list_set_other in Hb by exact Hj.
    rewrite Forall_nth_error in Hp. now apply Hp with j.
Qed.

Lemma running_invariant_completion r now1 now2 :
  running_invariant r -> running_invariant (step r (Completion now1 now2)).
Proof.
  intros Hinv. pose proof Hinv as (Hc & Hpool & Hnd & Hq & Hh & Hp).
  unfold step, processor_dead. rewrite Hc.
  destruct (pending r) as [c |] eqn:Ep; [| exact Hinv].
  destruct Hp as (Hst & Hstart & i & agent & Hn & Has & Hload & Hothers).
  unfold service_processor_complete. rewrite Has.
  rewrite (find_agent_from_unique _ 0 i agent Hnd Hn). cbn [Nat.add].
  assert (Hai : agent_invariant agent).
  { rewrite Forall_nth_error in Hpool. now apply Hpool with i. }
  pose proof (agent_invariant_complete agent c now1 now2) as Hai'.
  destruct (complete_service_keeps_identity agent c now1 now2)
    as (Hid & _ & Hw).
  assert (Hres : exists start,
            service_start_time c = Some start /\
            snd (complete_service agent c now1 now2) =
              Return (total_seconds (now1 - start)) /\
            status (snd (fst (complete_service agent c now1 now2))) =
              "Completed"%string /\
            wait_time (snd (fst (complete_service agent c now1 now2))) <>
              None).
  { destruct (service_start_time c) as [start |] eqn:Es; [| congruence].
    exists start. unfold complete_service. rewrite Es. cbn.
    repeat split. discriminate. }
  destruct Hres as (start & _ & Hret & Hdone & Hwait).
  destruct (complete_service agent c now1 now2) as [[agent2 c2] res].
  cbn [fst snd] in *. subst res.
  unfold running_invariant.
  cbn [globals customers_created pending crashed agents waiting_queue
       service_history].
  split; [reflexivity |].
  split; [apply list_set_Forall; [exact Hpool | apply Hai'; [lia | exact Hai]]
         |].
  split; [now rewrite (list_set_map_same agent_id _ i agent) |].
  split; [exact Hq |].
  split.
  { apply Forall_app. split; [exact Hh |]. constructor; [| constructor].
    cbn. split; assumption. }
  apply Forall_nth_error. intros j b Hb.
  destruct (Nat.eq_dec j i) as [-> | Hj].
  - rewrite list_set_same in Hb by (apply nth_error_Some; congruence).
    injection Hb as <-. lia.
  - rewrite list_set_other in Hb by exact Hj. now apply (Hothers j b).
Qed.

Lemma running_invariant_step r ev :
  running_invariant r -> running_invariant (step r ev).
Proof.
  destruct ev.
  - apply running_invariant_arrival.
  - apply running_invariant_dispatch.
  - apply running_invariant_completion.
  - apply running_invariant_tick.
  - apply running_invariant_set_algorithm.
Qed.

Lemma running_invariant_run evs : forall r,
  running_invariant r -> running_invariant (run_events r evs).
Proof.
  induction evs as [| ev evs IH]; intros r Hr; cbn; [exact Hr |].
  apply IH. now apply running_invariant_step.
Qed.

Lemma init_system_agents st ids limits clock :
  agents (init_system st ids limits clock) =
  agents st ++
  [Agent_init (ids 0%nat) "Alex" (limits 0%nat) (clock 0%nat);
   Agent_init (ids 1%nat) "Blake" (limits 1%nat) (clock 1%nat);
   Agent_init (ids 2%nat) "Casey" (limits 2%nat) (clock 2%nat);
   Agent_init (ids 3%nat) "Dana" (limits 3%nat) (clock 3%nat);
   Agent_init (ids 4%nat) "Elliot" (limits 4%nat) (clock 4%nat)].
Proof.
  unfold init_system. cbn. now rewrite <- !app_assoc.
Qed.

Lemma running_invariant_started ids limits clock :
  (forall i, (i < 5)%nat -> 1 <= limits i <= 3) ->
  NoDup (map ids (seq 0 5)) ->
  running_invariant (started ids limits clock).
Proof.
  intros Hlim Hids. unfold running_invariant, started.
  cbn [globals customers_created pending crashed].
  rewrite init_system_agents. cbn.
  split; [reflexivity |].
  split.
  { repeat (apply Forall_cons;
              [apply agent_invariant_init; apply Hlim; lia |]).
    apply Forall_nil. }
  split; [exact Hids |].
  split; [constructor |]. split; [constructor |].
  repeat constructor.
Qed.

Lemma fold_left_Zadd_acc l : forall a,
  fold_left Z.add l a = a + fold_left Z.add l 0.
Proof.
  induction l as [| x l IH]; intros a; cbn; [lia |].
  rewrite (IH (a + x)), (IH x). lia.
Qed.

Lemma Zsum_cons x l : Zsum (x :: l) = x + Zsum l.
Proof. unfold Zsum. cbn. apply fold_left_Zadd_acc. Qed.

Lemma Zsum_all_zero l : (forall j b, nth_error l j = Some b -> b = 0) ->
  Zsum l = 0.
Proof.
  induction l as [| x l IH]; intros H; [reflexivity |].
  rewrite Zsum_cons, IH.
  - rewrite (H 0%nat x eq_refl). reflexivity.
  - intros j b Hj. now apply (H (S j)).
Qed.

Lemma Zsum_single_one l : forall i,
  nth_error l i = Some 1 ->
  (forall j b, j <> i -> nth_error l j = Some b -> b = 0) ->
  Zsum l = 1.
Proof.
  induction l as [| x l IH]; intros [| i] Hi Hothers; cbn in Hi;
    try discriminate; rewrite Zsum_cons.
  - injection Hi as ->. rewrite Zsum_all_zero; [reflexivity |].
    intros j b Hj. now apply (Hothers (S j)).
  - rewrite (IH i Hi).
    + rewrite (Hothers 0%nat x); [reflexivity | lia | reflexivity].
    + intros j b Hj Hb. apply (Hothers (S j)); [lia | exact Hb].
Qed.

Lemma running_invariant_total_load r :
  running_invariant r ->
  Zsum (map current_workload (agents (globals r))) =
  if processor_asleep r then 1 else 0.
Proof.
  intros (_ & _ & _ & _ & _ & Hp). unfold processor_asleep.
  destruct (pending r) as [c |].
  - destruct Hp as (_ & _ & i & agent & Hn & _ & Hload & Hothers).
    apply (Zsum_single_one _ i).
    + rewrite nth_error_map, Hn. cbn. now rewrite Hload.
    + intros j b Hj Hb. rewrite nth_error_map in Hb.
      destruct (nth_error (agents (globals r)) j) as [a |] eqn:Ea;
        [| discriminate].
      cbn in Hb. injection Hb as <-. now apply (Hothers j a).
  - apply Zsum_all_zero. intros j b Hb. rewrite nth_error_map in Hb.
    destruct (nth_error (agents (globals r)) j) as [a |] eqn:Ea;
      [| discriminate].
    cbn in Hb. injection Hb as <-.
    rewrite Forall_nth_error in Hp. now apply (Hp j a).
Qed.

(** X11: [init_system] on the empty start state creates five agents named
    Alex, Blake, Casey, Dana and Elliot carrying the drawn ids; when every
    drawn limit is within 1..3 each agent satisfies the agent invariant, is
    idle and available with nothing served yet, and the fairness score of the
    pool is 100. *)
Theorem init_system_pool (ids : nat -> string) (limits : nat -> Z)
    (clock : nat -> datetime) :
  (forall i, (i < 5)%nat -> 1 <= limits i <= 3) ->
  let st := init_system initial_system ids limits clock in
  map name (agents st) =
    ["Alex"; "Blake"; "Casey"; "Dana"; "Elliot"]%string /\
  map agent_id (agents st) = map ids (seq 0 5) /\
  Forall agent_invariant (agents st) /\
  Forall (fun a => current_workload a = 0 /\ available a = true /\
                   1 <= workload_limit a <= 3 /\
                   customers_served a = []) (agents st) /\
  available_agents (agents st) = combine (seq 0 5) (agents st) /\
  fairness_score (agents st) = 100%R.
Proof.
  intros Hlim. cbv zeta. rewrite init_system_agents.
  cbn [initial_system agents app].
  split; [reflexivity |]. split; [reflexivity |].
  assert (H0 := Hlim 0%nat). assert (H1 := Hlim 1%nat).
  assert (H2 := Hlim 2%nat). assert (H3 := Hlim 3%nat).
  assert (H4 := Hlim 4%nat).
  split.
  { repeat (apply Forall_cons;
              [apply agent_invariant_init; apply Hlim; lia |]).
    apply Forall_nil. }
  split.
  { repeat (apply Forall_cons;
              [cbn; repeat split; try reflexivity; lia |]).
    apply Forall_nil. }
  split; [reflexivity |].
  rewrite fairness_score_spec.
  apply (spec_fairness_equal_loads 0).
  cbn. intros x Hx. intuition congruence.
Qed.

(** X12: start from [init_system] with limits within 1..3 and pairwise
    distinct agent ids, and let arrivals, dispatches, completions, status
    ticks and algorithm switches happen in any order and number.  Then the
    processor thread never raises, every agent satisfies the agent
    invariant, every queued customer is still waiting, every history entry
    is completed with a known wait time, and at most one customer is in
    service: while the processor sleeps on a customer exactly one agent has
    workload 1, and otherwise every workload is 0. *)
Theorem running_system_safe (ids : nat -> string) (limits : nat -> Z)
    (clock : nat -> datetime) (evs : list Event) :
  (forall i, (i < 5)%nat -> 1 <= limits i <= 3) ->
  NoDup (map ids (seq 0 5)) ->
  running_invariant (run_events (started ids limits clock) evs) /\
  Zsum (map current_workload
          (agents (globals (run_events (started ids limits clock) evs)))) =
    (if processor_asleep (run_events (started ids limits clock) evs)
     then 1 else 0).
Proof.
  intros Hlim Hids.
  assert (H : running_invariant (run_events (started ids limits clock) evs))
    by (apply running_invariant_run; now apply running_invariant_started).
  split; [exact H | now apply running_invariant_total_load].
Qed.

(** ** Instances of the further properties *)

Lemma utilization_rate_bounds_witness :
  (0 <= total_service_time sample_veteran)%Q /\
  (0 <= idle_time sample_veteran)%Q /\
  last_status_change sample_veteran <= 30000000 /\
  (0 <= calculate_utilization_rate sample_veteran 30000000%Z)%Q /\
  (calculate_utilization_rate sample_veteran 30000000%Z <= 100)%Q.
Proof.
  assert (H1 : (0 <= total_service_time sample_veteran)%Q)
    by (unfold Qle; cbn; lia).
  assert (H2 : (0 <= idle_time sample_veteran)%Q)
    by (unfold Qle; cbn; lia).
  assert (H3 : last_status_change sample_veteran <= 30000000)
    by (cbn; lia).
  split; [exact H1 |]. split; [exact H2 |]. split; [exact H3 |].
  exact (utilization_rate_bounds sample_veteran 30000000 H1 H2 H3).
Defined.

Lemma status_updater_tick_spec_witness :
  let st := sample_system [sample_loaded "a" 1 1; sample_veteran] [] in
  Forall agent_invariant (agents st) /\
  Forall agent_invariant
         (agents (status_updater_tick st (fun _ => 30000000))) /\
  nth_error (agents st) 1 = Some sample_veteran /\
  last_status_change sample_veteran <= 30000000 /\
  exists a',
    nth_error (agents (status_updater_tick st (fun _ => 30000000))) 1 =
      Some a' /\
    (idle_time sample_veteran <= idle_time a')%Q.
Proof.
  cbv zeta.
  assert (Hpool : Forall agent_invariant
                    (agents (sample_system
                               [sample_loaded "a" 1 1; sample_veteran] []))).
  { repeat (apply Forall_cons; [unfold agent_invariant; cbn; lia |]).
    apply Forall_nil. }
  pose proof (status_updater_tick_spec
                (sample_system [sample_loaded "a" 1 1; sample_veteran] [])
                (fun _ => 30000000))
    as (_ & _ & _ & _ & _ & _ & _ & _ & Hkeep & Hnth).
  split; [exact Hpool |]. split; [exact (Hkeep Hpool) |].
  split; [reflexivity |].
  assert (Hclock : last_status_change sample_veteran <= 30000000)
    by (cbn; lia).
  split; [exact Hclock |].
  destruct (Hnth 1%nat sample_veteran eq_refl) as (a' & Ha' & _ & _ & Hidle).
  exists a'. split; [exact Ha' | exact (Hidle Hclock)].
Defined.

Lemma round_robin_ignores_new_arrival_witness :
  let st := sample_system [Agent_init "a1" "Alex" 2 0]
              [sample_customer "A" VIP 10 0] in
  waiting_queue st <> [] /\
  round_robin_scheduling
    (snd (customer_generator_step [] st "B" Normal 5 1000000)) 2000000 =
  (snd (customer_generator_step []
          (fst (round_robin_scheduling st 2000000)) "B" Normal 5 1000000),
   snd (round_robin_scheduling st 2000000)).
Proof.
  cbv zeta.
  assert (Hq : waiting_queue
                 (sample_system [Agent_init "a1" "Alex" 2 0]
                                [sample_customer "A" VIP 10 0]) <> [])
    by discriminate.
  split; [exact Hq |].
  exact (round_robin_ignores_new_arrival []
           (sample_system [Agent_init "a1" "Alex" 2 0]
                          [sample_customer "A" VIP 10 0])
           "B" Normal 5 1000000 2000000 Hq).
Defined.

Lemma init_system_pool_witness :
  (forall i, (i < 5)%nat -> 1 <= (fun _ : nat => 2) i <= 3) /\
  Forall agent_invariant
    (agents (init_system initial_system (fun _ => "id"%string)
                         (fun _ => 2) (fun _ => 0))).
Proof.
  assert (Hlim : forall i, (i < 5)%nat -> 1 <= (fun _ : nat => 2) i <= 3)
    by (intros i _; cbn; lia).
  split; [exact Hlim |].
  exact (proj1 (proj2 (proj2
           (init_system_pool (fun _ => "id"%string) (fun _ => 2)
                             (fun _ => 0) Hlim)))).
Defined.

Lemma running_system_safe_witness :
  let ids := fun i : nat =>
               nth i ["a0"; "a1"; "a2"; "a3"; "a4"]%string ""%string in
  let evs := [ Arrival "c1" VIP 10 1000000;
               Arrival "c2" Normal 5 2000000;
               SetAlgorithm "priority";
               Dispatch 3000000;
               Tick (fun _ => 5000000);
               Dispatch 6000000;
               Completion 13000000 13000001;
               Dispatch 14000000 ] in
  (forall i, (i < 5)%nat -> 1 <= (fun _ : nat => 2) i <= 3) /\
  NoDup (map ids (seq 0 5)) /\
  running_invariant (run_events (started ids (fun _ => 2) (fun _ => 0)) evs)
  /\
  Zsum (map current_workload
          (agents (globals
                     (run_events (started ids (fun _ => 2) (fun _ => 0))
                                 evs)))) = 1.
Proof.
  cbv zeta.
  assert (Hlim : forall i, (i < 5)%nat -> 1 <= (fun _ : nat => 2) i <= 3)
    by (intros i _; cbn; lia).
  assert (Hids : NoDup (map (fun i : nat =>
                               nth i ["a0"; "a1"; "a2"; "a3"; "a4"]%string
                                   ""%string) (seq 0 5))).
  { cbn. repeat constructor; cbn; intuition discriminate. }
  split; [exact Hlim |]. split; [exact Hids |].
  destruct (running_system_safe
              (fun i : nat =>
                 nth i ["a0"; "a1"; "a2"; "a3"; "a4"]%string ""%string)
              (fun _ => 2) (fun _ => 0)
              [ Arrival "c1" VIP 10 1000000;
                Arrival "c2" Normal 5 2000000;
                SetAlgorithm "priority";
                Dispatch 3000000;
                Tick (fun _ => 5000000);
                Dispatch 6000000;
                Completion 13000000 13000001;
                Dispatch 14000000 ] Hlim Hids) as [Hinv Hload].
  split; [exact Hinv | exact Hload].
Defined.

(** ** The order of service *)

Lemma list_sort_fixed (key : Customer -> Z * Z) l :
  StronglySorted (key_le key) l -> list_sort key l = l.
Proof.
  intros Hs. symmetry. apply stable_sort_unique; [exact Hs |].
  intros k. reflexivity.
Qed.

Lemma service_order_tail alg q c rest :
  service_order alg q = c :: rest -> service_order alg rest = rest.
Proof.
  destruct alg; cbn; intros E; [reflexivity | |];
    apply list_sort_fixed;
    match goal with
    | |- StronglySorted (key_le ?key) _ =>
        pose proof (list_sort_sorted key q) as Hs
    end;
    rewrite E in Hs; now inversion Hs.
Qed.

Lemma service_order_perm alg q : Permutation q (service_order alg q).
Proof.
  destruct alg; cbn; [apply Permutation_refl | |]; apply list_sort_perm.
Qed.

Lemma sorting_dispatch_order (key : Customer -> Z * Z)
    (pick : nat * Agent -> list (nat * Agent) -> nat * Agent)
    (st : System) (now : datetime) :
  waiting_queue st <> [] ->
  available_agents (agents st) <> [] ->
  let out :=
    match waiting_queue st with
    | [] => (st, Return None)
    | _ :: _ =>
        let st1 :=
          {| agents := agents st;
             waiting_queue := list_sort key (waiting_queue st);
             service_history := service_history st;
             current_algorithm := current_algorithm st |} in
        match available_agents (agents st1) with
        | [] => (st1, Return None)
        | first :: others =>
            let '(i, agent) := pick first others in
            match pop0 (waiting_queue st1) with
            | Raise e => (st1, Raise e)
            | Return (customer, rest) =>
                let '(agent', customer', _) :=
                  assign_customer agent customer now in
                ({| agents := list_set (agents st1) i agent';
                    waiting_queue := rest;
                    service_history := service_history st1;
                    current_algorithm := current_algorithm st1 |},
                 Return (Some customer'))
            end
        end
    end in
  exists customer,
    list_sort key (waiting_queue st) = customer :: waiting_queue (fst out) /\
    exists returned, snd out = Return (Some returned) /\
                     customer_id returned = customer_id customer.
Proof.
  intros Hq Ha. cbv zeta.
  destruct (waiting_queue st) as [| c0 q0] eqn:Eq; [congruence |].
  cbn [agents waiting_queue service_history current_algorithm].
  destruct (available_agents (agents st)) as [| first others] eqn:Ea;
    [congruence |].
  destruct (pick first others) as [i agent].
  destruct (list_sort key (c0 :: q0)) as [| customer rest] eqn:Es;
    [exfalso; now apply (list_sort_nonempty key c0 q0) |].
  exists customer. cbn [pop0].
  destruct (assign_customer_keeps_identity agent customer now)
    as (_ & _ & _ & Hid & _).
  destruct (assign_customer agent customer now) as [[agent' customer'] ok].
  cbn in *. split; [reflexivity |]. exists customer'. now split.
Qed.

(** The customer a call hands out is the first one in the algorithm's
    order of service, and the queue is left with the rest of that order. *)
Lemma run_current_algorithm_order st now :
  waiting_queue st <> [] ->
  available_agents (agents st) <> [] ->
  exists customer returned,
    service_order (current_algorithm st) (waiting_queue st) =
      customer :: waiting_queue (fst (run_current_algorithm st now)) /\
    snd (run_current_algorithm st now) = Return (Some returned) /\
    customer_id returned = customer_id customer.
Proof.
  intros Hq Ha. unfold run_current_algorithm, service_order.
  destruct (current_algorithm st).
  - destruct (round_robin_cases st now) as [[[Hc | Hc] _] | Hd];
      [congruence | congruence |].
    destruct Hd as (i & agent & c & (_ & _ & _ & Hout) & Hhead & _).
    destruct (assign_customer_keeps_identity agent c now)
      as (_ & _ & _ & Hid & _).
    exists c, (snd (fst (assign_customer agent c now))).
    split; [exact Hhead |]. split; [| exact Hid].
    rewrite Hout. reflexivity.
  - destruct (sorting_dispatch_order priority_key
                (py_max_from (fun ia => spare_capacity (snd ia))) st now
                Hq Ha) as (c & Hs & r & Hr & Hid).
    exists c, r. repeat split; assumption.
  - destruct (sorting_dispatch_order shortest_job_key
                (py_min_from (fun ia => current_workload (snd ia))) st now
                Hq Ha) as (c & Hs & r & Hr & Hid).
    exists c, r. repeat split; assumption.
Qed.

Lemma pool_invariant_same_loads ags : forall ags',
  map current_workload ags' = map current_workload ags ->
  map workload_limit ags' = map workload_limit ags ->
  map available ags' = map available ags ->
  Forall agent_invariant ags -> Forall agent_invariant ags'.
Proof.
  induction ags as [| a ags IH]; intros [| a' ags'] Hw Hl Hf Hpool;
    cbn in *; try discriminate; constructor.
  - injection Hw as Hw _. injection Hl as Hl _. injection Hf as Hf _.
    inversion Hpool; subst.
    now apply (agent_invariant_same_load a a').
  - injection Hw as _ Hw. injection Hl as _ Hl. injection Hf as _ Hf.
    inversion Hpool; subst. now apply IH.
Qed.

(** A pass whose dispatch handed customer [c] to the agent at position
    [i]: where the pass leaves the system. *)
Lemma service_processor_pass_dispatched st now now1 now2 i agent c :
  Forall agent_invariant (agents st) ->
  NoDup (map agent_id (agents st)) ->
  dispatched st now (run_current_algorithm st now) i agent c ->
  snd (service_processor_pass st now now1 now2) = Return tt /\
  map current_workload (agents (fst (service_processor_pass st now now1 now2)))
    = map current_workload (agents st) /\
  map available (agents (fst (service_processor_pass st now now1 now2)))
    = map available (agents st) /\
  map agent_id (agents (fst (service_processor_pass st now now1 now2)))
    = map agent_id (agents st) /\
  map workload_limit (agents (fst (service_processor_pass st now now1 now2)))
    = map workload_limit (agents st) /\
  waiting_queue (fst (service_processor_pass st now now1 now2)) =
    waiting_queue (fst (run_current_algorithm st now)) /\
  current_algorithm (fst (service_processor_pass st now now1 now2)) =
    current_algorithm st /\
  exists entry,
    service_history (fst (service_processor_pass st now now1 now2)) =
      service_history st ++ [entry] /\
    cv_customer_id entry = customer_id c /\
    cv_status entry = "Completed"%string /\
    cv_assigned_agent entry = Some (agent_id agent) /\
    cv_wait_time entry = Some (total_seconds (now - arrival_time c)).
Proof.
  intros Hpool Hnd (Hn & Hf & Hperm & Hout).
  assert (Hinv : agent_invariant agent).
  { rewrite Forall_forall in Hpool. apply Hpool.
    now apply nth_error_In with i. }
  destruct (assign_customer_when_available agent c now Hinv Hf)
    as (_ & _ & _ & _ & Has & _).
  destruct (assign_customer_keeps_identity agent c now)
    as (Hid & _ & Hlim & _).
  destruct (complete_after_assign agent c now now1 now2 Hinv Hf)
    as (Hret & Hw & Hflag & _ & Hcid & Hst & Hag & Hwait).
  destruct (complete_service_keeps_identity
              (fst (fst (assign_customer agent c now)))
              (snd (fst (assign_customer agent c now))) now1 now2)
    as (Hid2 & Hlim2 & _).
  cbv zeta in Hid, Hlim, Has, Hret, Hw, Hflag, Hcid, Hst, Hag, Hwait.
  unfold service_processor_pass.
  set (rest := waiting_queue (fst (run_current_algorithm st now))) in *.
  rewrite Hout. unfold service_processor_complete.
  cbn [agents waiting_queue service_history current_algorithm].
  rewrite Has.
  assert (Hfind :
    find_agent_from 0
      (list_set (agents st) i
                (fst (fst (assign_customer agent c now))))
      (Some (agent_id agent)) =
    Some (i, fst (fst (assign_customer agent c now)))).
  { rewrite <- Hid at 1.
    apply (find_agent_from_unique _ 0 i).
    - now rewrite (list_set_map_same agent_id _ i agent).
    - apply list_set_same. apply nth_error_Some. congruence. }
  rewrite Hfind.
  destruct (complete_service (fst (fst (assign_customer agent c now)))
              (snd (fst (assign_customer agent c now))) now1 now2)
    as [[agent'' customer''] r].
  cbn [fst snd] in Hret, Hw, Hflag, Hcid, Hst, Hag, Hwait, Hid2, Hlim2.
  rewrite Hret.
  cbn [fst snd agents waiting_queue service_history current_algorithm].
  rewrite list_set_twice.
  split; [reflexivity |].
  split; [now apply list_set_map_same with agent |].
  split; [now apply list_set_map_same with agent |].
  split; [apply list_set_map_same with agent; [exact Hn | congruence] |].
  split; [apply list_set_map_same with agent; [exact Hn | congruence] |].
  split; [reflexivity |]. split; [reflexivity |].
  exists (Customer_to_dict customer'').
  split; [reflexivity |]. cbn. repeat split; assumption.
Qed.

Lemma service_passes_in_order times : forall st,
  service_order (current_algorithm st) (waiting_queue st) =
    waiting_queue st ->
  Forall agent_invariant (agents st) ->
  NoDup (map agent_id (agents st)) ->
  In true (map available (agents st)) ->
  (List.length times <= List.length (waiting_queue st))%nat ->
  waiting_queue (service_passes st times) =
    skipn (List.length times) (waiting_queue st) /\
  map cv_customer_id (service_history (service_passes st times)) =
    map cv_customer_id (service_history st) ++
    map customer_id (firstn (List.length times) (waiting_queue st)) /\
  map current_workload (agents (service_passes st times)) =
    map current_workload (agents st).
Proof.
  induction times as [| [[now now1] now2] times IH];
    intros st Hord Hpool Hnd Hav Hlen.
  - cbn. rewrite app_nil_r. repeat split.
  - cbn [service_passes List.length].
    assert (Hq : waiting_queue st <> [])
      by (destruct (waiting_queue st); [cbn in Hlen; lia | discriminate]).
    assert (Ha : available_agents (agents st) <> []).
    { apply in_map_iff in Hav. destruct Hav as (a & Hf & Hin).
      now apply (available_agents_nonempty (agents st) a). }
    destruct (run_current_algorithm_order st now Hq Ha)
      as (c' & returned & Hhead & Hret & Hid').
    destruct (run_current_algorithm_cases st now)
      as [([Hc | Hc] & _) | (_ & _ & i & agent & c & Hd)];
      [congruence | congruence |].
    assert (Hcc : customer_id c = customer_id c').
    { destruct Hd as (_ & _ & _ & Hout). rewrite Hout in Hret.
      cbn in Hret. injection Hret as <-.
      destruct (assign_customer_keeps_identity agent c now)
        as (_ & _ & _ & Hid & _).
      congruence. }
    destruct (service_processor_pass_dispatched st now now1 now2 i agent c
                Hpool Hnd Hd)
      as (_ & Hw & Hf & Hids & Hlims & Hqueue & Halg & entry & Hhist & Hcid
          & _).
    rewrite Hord in Hhead.
    set (st1 := fst (service_processor_pass st now now1 now2)) in *.
    assert (Hord1 : service_order (current_algorithm st1)
                      (waiting_queue st1) = waiting_queue st1).
    { rewrite Halg, Hqueue.
      apply (service_order_tail _ (waiting_queue st) c').
      now rewrite Hord. }
    destruct (IH st1 Hord1) as (IHq & IHh & IHw).
    + now apply (pool_invariant_same_loads (agents st)).
    + now rewrite Hids.
    + now rewrite Hf.
    + rewrite Hqueue. rewrite Hhead in Hlen. cbn in Hlen. lia.
    + rewrite IHq, IHh, IHw, Hqueue, Hhist, Hhead, Hw.
      split; [reflexivity |]. split; [| reflexivity].
      rewrite map_app, <- app_assoc. cbn. now rewrite Hcid, Hcc.
Qed.

(** X13: on a pool with distinct ids that satisfies the agent invariant
    and has an available agent, a run of [service_processor] passes with
    nothing arriving in between serves the queue in the active algorithm's
    order: arrival order under round robin, (priority descending, arrival
    ascending) under priority scheduling, (service time ascending, priority
    descending) under shortest job next.  After [n] passes the history has
    grown by the first [n] customers of that order, in that order, the queue
    holds the rest of it, and every workload is back where it was. *)
Theorem service_passes_follow_order (st : System)
    (now now1 now2 : datetime)
    (times : list (datetime * datetime * datetime)) :
  Forall agent_invariant (agents st) ->
  NoDup (map agent_id (agents st)) ->
  (exists a, In a (agents st) /\ available a = true) ->
  (S (List.length times) <= List.length (waiting_queue st))%nat ->
  let served := service_passes st ((now, now1, now2) :: times) in
  let order := service_order (current_algorithm st) (waiting_queue st) in
  waiting_queue served = skipn (S (List.length times)) order /\
  map cv_customer_id (service_history served) =
    map cv_customer_id (service_history st) ++
    map customer_id (firstn (S (List.length times)) order) /\
  map current_workload (agents served) = map current_workload (agents st).
Proof.
  intros Hpool Hnd (a & Hin & Hav) Hlen. cbv zeta.
  cbn [service_passes].
  assert (Hq : waiting_queue st <> [])
    by (destruct (waiting_queue st); [cbn in Hlen; lia | discriminate]).
  assert (Ha : available_agents (agents st) <> [])
    by now apply (available_agents_nonempty (agents st) a).
  destruct (run_current_algorithm_order st now Hq Ha)
    as (c' & returned & Hhead & Hret & Hid').
  destruct (run_current_algorithm_cases st now)
    as [([Hc | Hc] & _) | (_ & _ & i & agent & c & Hd)];
    [congruence | congruence |].
  assert (Hcc : customer_id c = customer_id c').
  { destruct Hd as (_ & _ & _ & Hout). rewrite Hout in Hret.
    cbn in Hret. injection Hret as <-.
    destruct (assign_customer_keeps_identity agent c now)
      as (_ & _ & _ & Hid & _).
    congruence. }
  destruct (service_processor_pass_dispatched st now now1 now2 i agent c
              Hpool Hnd Hd)
    as (_ & Hw & Hf & Hids & Hlims & Hqueue & Halg & entry & Hhist & Hcid
        & _).
  set (st1 := fst (service_processor_pass st now now1 now2)) in *.
  assert (Hord1 : service_order (current_algorithm st1)
                    (waiting_queue st1) = waiting_queue st1).
  { rewrite Halg, Hqueue. exact (service_order_tail _ _ _ _ Hhead). }
  destruct (service_passes_in_order times st1 Hord1) as (Pq & Ph & Pw).
  - now apply (pool_invariant_same_loads (agents st)).
  - now rewrite Hids.
  - rewrite Hf. apply in_map_iff. now exists a.
  - rewrite Hqueue.
    pose proof (Permutation_length
                  (service_order_perm (current_algorithm st)
                                      (waiting_queue st))) as Hl.
    rewrite Hhead in Hl. cbn in Hl. lia.
  - rewrite Pq, Ph, Pw, Hqueue, Hhist, Hhead, Hw.
    split; [reflexivity |]. split; [| reflexivity].
    rewrite map_app, <- app_assoc. cbn. now rewrite Hcid, Hcc.
Qed.

(** X14: when no agent is available, a second call of the current algorithm
    changes nothing more than the first: the sort of an already sorted queue
    leaves it as it is, so retrying in the backoff loop does not reshuffle
    the queue. *)
Theorem idle_dispatch_is_idempotent (st : System) (now now' : datetime) :
  (forall a, In a (agents st) -> available a = false) ->
  run_current_algorithm (fst (run_current_algorithm st now)) now' =
  (fst (run_current_algorithm st now), Return None).
Proof.
  intros Hnone. apply available_agents_nil in Hnone.
  unfold run_current_algorithm.
  destruct (current_algorithm st) eqn:Ealg.
  - unfold round_robin_scheduling. rewrite Hnone.
    destruct (waiting_queue st) eqn:Eq; cbn; rewrite Ealg.
    + now rewrite Eq.
    + now rewrite Eq, Hnone.
  - unfold priority_scheduling.
    destruct (waiting_queue st) as [| c q] eqn:Eq; cbn [fst].
    + rewrite Ealg, Eq. reflexivity.
    + cbn [agents waiting_queue service_history current_algorithm].
      rewrite Hnone. cbn [fst current_algorithm waiting_queue agents
                          service_history].
      rewrite Ealg.
      destruct (list_sort priority_key (c :: q)) as [| c1 q1] eqn:Es;
        [exfalso; now apply (list_sort_nonempty priority_key c q) |].
      rewrite Hnone. rewrite <- Es.
      rewrite (list_sort_fixed priority_key
                 (list_sort priority_key (c :: q)))
        by apply list_sort_sorted.
      reflexivity.
  - unfold shortest_job_next.
    destruct (waiting_queue st) as [| c q] eqn:Eq; cbn [fst].
    + rewrite Ealg, Eq. reflexivity.
    + cbn [agents waiting_queue service_history current_algorithm].
      rewrite Hnone. cbn [fst current_algorithm waiting_queue agents
                          service_history].
      rewrite Ealg.
      destruct (list_sort shortest_job_key (c :: q)) as [| c1 q1] eqn:Es;
        [exfalso; now apply (list_sort_nonempty shortest_job_key c q) |].
      rewrite Hnone. rewrite <- Es.
      rewrite (list_sort_fixed shortest_job_key
                 (list_sort shortest_job_key (c :: q)))
        by apply list_sort_sorted.
      reflexivity.
Qed.

(** X15: [complete_service] checks nothing.  On a customer that was never
    assigned it raises [TypeError] only after it has taken one off the
    workload, leaving the customer and the service total untouched; and on
    an agent with no workload it drives the workload below zero, which
    breaks the agent invariant. *)
Theorem complete_service_unchecked (a : Agent) (c : Customer)
    (now1 now2 : datetime) :
  (service_start_time c = None ->
   snd (complete_service a c now1 now2) = Raise TypeError /\
   snd (fst (complete_service a c now1 now2)) = c /\
   current_workload (fst (fst (complete_service a c now1 now2))) =
     current_workload a - 1 /\
   total_service_time (fst (fst (complete_service a c now1 now2))) =
     total_service_time a) /\
  (current_workload a <= 0 ->
   ~ agent_invariant (fst (fst (complete_service a c now1 now2)))).
Proof.
  split.
  - intros Hnone. unfold complete_service. rewrite Hnone. cbn.
    repeat split.
  - intros Hzero [[Hlo _] _].
    destruct (complete_service_keeps_identity a c now1 now2) as (_ & _ & Hw).
    lia.
Qed.

(** ** Views *)

(** X16: the four read endpoints agree with each other on one state:
    [get_metrics] counts the entries of [get_history] and of [get_queue],
    each [get_agents] entry carries its agent's workload, limit, flag and
    number of customers ever assigned, and the utilization [get_metrics]
    reports is the rounded mean of the rates the [get_agents] entries
    carry when both read the same clock. *)
Theorem views_agree (st : System) (clock : nat -> datetime) :
  completed_customers (get_metrics st clock) =
    List.length (get_history st) /\
  customers_in_queue (get_metrics st clock) = List.length (get_queue st) /\
  map av_current_workload (get_agents st clock) =
    map current_workload (agents st) /\
  map av_workload_limit (get_agents st clock) =
    map workload_limit (agents st) /\
  map av_available (get_agents st clock) = map available (agents st) /\
  map av_customers_served (get_agents st clock) =
    map (fun a => List.length (customers_served a)) (agents st) /\
  map cv_customer_id (get_queue st) =
    map customer_id (waiting_queue st) /\
  agent_utilization (get_metrics st clock) =
    py_round2
      (match get_agents st clock with
       | [] => 0
       | _ :: _ =>
           Qsum (map av_utilization_rate (get_agents st clock))
           / inject_Z (Z.of_nat (List.length (get_agents st clock)))
       end)%Q.
Proof.
  split; [reflexivity |].
  split; [unfold get_queue; now rewrite length_map |].
  split; [apply map_indexed_proj; reflexivity |].
  split; [apply map_indexed_proj; reflexivity |].
  split; [apply map_indexed_proj; reflexivity |].
  split; [apply map_indexed_proj; reflexivity |].
  split; [unfold get_queue; rewrite map_map; reflexivity |].
  cbn [get_metrics agent_utilization]. f_equal.
  unfold avg_utilization, get_agents, utilization_rates.
  destruct (agents st) as [| a ags]; [reflexivity |].
  rewrite map_map, length_map, length_combine, length_seq, Nat.min_id.
  reflexivity.
Qed.

Lemma service_passes_follow_order_witness :
  let st := with_algorithm
              (sample_system [sample_loaded "a" 1 1;
                              Agent_init "b" "Blake" 2 0]
                 [sample_customer "N1" Normal 5 0;
                  sample_customer "V" VIP 10 1000000;
                  sample_customer "N2" Normal 7 2000000])
              PriorityScheduling in
  let times := [(20000000, 30000000, 30000001)] in
  Forall agent_invariant (agents st) /\
  NoDup (map agent_id (agents st)) /\
  (exists a, In a (agents st) /\ available a = true) /\
  (S (List.length times) <= List.length (waiting_queue st))%nat /\
  map cv_customer_id
      (service_history
         (service_passes st ((3000000, 13000000, 13000001) :: times))) =
    ["V"; "N1"]%string /\
  map customer_id
      (waiting_queue
         (service_passes st ((3000000, 13000000, 13000001) :: times))) =
    ["N2"]%string.
Proof.
  cbv zeta.
  assert (Hpool : Forall agent_invariant
                    (agents (with_algorithm
                               (sample_system
                                  [sample_loaded "a" 1 1;
                                   Agent_init "b" "Blake" 2 0]
                                  [sample_customer "N1" Normal 5 0;
                                   sample_customer "V" VIP 10 1000000;
                                   sample_customer "N2" Normal 7 2000000])
                               PriorityScheduling))).
  { repeat (apply Forall_cons; [unfold agent_invariant; cbn; lia |]).
    apply Forall_nil. }
  assert (Hnd : NoDup (map agent_id
                    (agents (with_algorithm
                               (sample_system
                                  [sample_loaded "a" 1 1;
                                   Agent_init "b" "Blake" 2 0]
                                  [sample_customer "N1" Normal 5 0;
                                   sample_customer "V" VIP 10 1000000;
                                   sample_customer "N2" Normal 7 2000000])
                               PriorityScheduling)))).
  { cbn. repeat constructor; cbn; intuition discriminate. }
  assert (Ha : exists a,
             In a (agents (with_algorithm
                             (sample_system
                                [sample_loaded "a" 1 1;
                                 Agent_init "b" "Blake" 2 0]
                                [sample_customer "N1" Normal 5 0;
                                 sample_customer "V" VIP 10 1000000;
                                 sample_customer "N2" Normal 7 2000000])
                             PriorityScheduling)) /\
             available a = true).
  { exists (Agent_init "b" "Blake" 2 0).
    split; [right; now left | reflexivity]. }
  assert (Hlen : le (S (List.length [(20000000, 30000000, 30000001)]))
                    (List.length
                       (waiting_queue
                          (with_algorithm
                             (sample_system
                                [sample_loaded "a" 1 1;
                                 Agent_init "b" "Blake" 2 0]
                                [sample_customer "N1" Normal 5 0;
                                 sample_customer "V" VIP 10 1000000;
                                 sample_customer "N2" Normal 7 2000000])
                             PriorityScheduling)))) by (cbn; lia).
  split; [exact Hpool |]. split; [exact Hnd |]. split; [exact Ha |].
  split; [exact Hlen |].
  pose proof (service_passes_follow_order _ 3000000 13000000 13000001
                [(20000000, 30000000, 30000001)] Hpool Hnd Ha Hlen) as H.
  cbv zeta in H. destruct H as (Hq & Hh & _).
  split.
  - etransitivity; [exact Hh | reflexivity].
  - etransitivity; [exact (f_equal (map customer_id) Hq) | reflexivity].
Defined.

Lemma idle_dispatch_is_idempotent_witness :
  let st := with_algorithm
              (sample_system [sample_loaded "a" 1 1]
                 [sample_customer "B" Normal 5 0;
                  sample_customer "A" VIP 10 1000000])
              PriorityScheduling in
  (forall a, In a (agents st) -> available a = false) /\
  run_current_algorithm (fst (run_current_algorithm st 2000000)) 3000000 =
  (fst (run_current_algorithm st 2000000), Return None).
Proof.
  cbv zeta.
  assert (H : forall a,
            In a (agents (with_algorithm
                            (sample_system [sample_loaded "a" 1 1]
                               [sample_customer "B" Normal 5 0;
                                sample_customer "A" VIP 10 1000000])
                            PriorityScheduling)) ->
            available a = false).
  { intros a [<- | []]. reflexivity. }
  split; [exact H |].
  exact (idle_dispatch_is_idempotent _ 2000000 3000000 H).
Defined.

Lemma complete_service_unchecked_witness :
  let a := Agent_init "a1" "Alex" 2 0 in
  let c := sample_customer "c1" VIP 10 1000000 in
  service_start_time c = None /\
  current_workload a <= 0 /\
  snd (complete_service a c 5000000 5000001) = Raise TypeError /\
  current_workload (fst (fst (complete_service a c 5000000 5000001))) = -1 /\
  ~ agent_invariant (fst (fst (complete_service a c 5000000 5000001))).
Proof.
  cbv zeta.
  destruct (complete_service_unchecked (Agent_init "a1" "Alex" 2 0)
              (sample_customer "c1" VIP 10 1000000) 5000000 5000001)
    as [Hraise Hneg].
  assert (Hz : current_workload (Agent_init "a1" "Alex" 2 0) <= 0)
    by (cbn; lia).
  split; [reflexivity |]. split; [exact Hz |].
  destruct (Hraise eq_refl) as (Hr & _ & Hw & _).
  split; [exact Hr |]. split; [exact Hw |]. exact (Hneg Hz).
Defined.
